(** * STL_Simulation.py: the linked list and the priority queue

  A shallow embedding of the two containers of [STL_Simulation.py] that
  carry invariants of their own: [List] (a doubly-linked list of
  [ListNode] objects) and [PriorityQueue] (an adapter over the [heapq]
  functions of the Python standard library).

  Python objects live in an explicit store and are named by locations;
  methods are computations in a state-and-exception monad, so that the
  state a method leaves behind when it raises is part of its result. *)

From Stdlib Require Import ZArith Lia.
From Equations Require Import Equations.
From stdpp Require Import base list strings sorting gmap.

Local Open Scope Z_scope.

(** ** Python exceptions and the method monad *)

Module Py.

(** The exceptions the modelled code can raise.  [IndexError] carries the
    message given at the [raise]; [TypeError] is what [<] raises on
    operands it does not order; [AttributeError] is an attribute access
    on [None].  [DanglingRef] has no Python counterpart: it is the
    model's outcome for a location without an object, which no Python
    reference ever is. *)
Inductive exn : Type :=
| IndexError (msg : string)
| TypeError
| AttributeError
| DanglingRef.

Inductive outcome (A : Type) : Type :=
| Ret (a : A)
| Raise (e : exn).
Arguments Ret {A} a.
Arguments Raise {A} e.

(** A method body over a state [S]: it returns or raises, and in both
    cases leaves a state behind. *)
Definition M (S A : Type) : Type := S → outcome A * S.

Definition ret {S A} (a : A) : M S A := λ s, (Ret a, s).
Definition raise {S A} (e : exn) : M S A := λ s, (Raise e, s).
Definition bind {S A B} (m : M S A) (k : A → M S B) : M S B :=
  λ s, match m s with
       | (Ret a, s') => k a s'
       | (Raise e, s') => (Raise e, s')
       end.
Definition gets {S A} (f : S → A) : M S A := λ s, (Ret (f s), s).
Definition modify {S} (f : S → S) : M S unit := λ s, (Ret tt, f s).

Definition is_ret {A} (o : outcome A) : bool :=
  match o with Ret _ => true | Raise _ => false end.

End Py.

Import Py.

Declare Scope py_scope.
Delimit Scope py_scope with py.
Notation "x <- m ;; k" := (bind m (λ x, k))
  (at level 100, m at level 99, k at level 200, right associativity) : py_scope.
Notation "m ;;; k" := (bind m (λ _, k))
  (at level 100, k at level 200, right associativity) : py_scope.
Local Open Scope py_scope.

(** ** [class ListNode] and [class List] *)

Module LinkedSequence.

(** A location names an object of the store. *)
Abbreviation loc := nat.

Section Model.
Context {T : Type}.

(** [ListNode]: [data], [next], [prev]; a reference is a location or
    [None]. *)
Record ListNode : Type := mkNode {
  data : T;
  next : option loc;
  prev : option loc;
}.

(** A [List] object together with the [ListNode] objects allocated so
    far ([nodes], indexed by location; a node that is unlinked stays
    there as garbage). *)
Record List : Type := mkList {
  nodes : list ListNode;
  _head : option loc;
  _tail : option loc;
  _size : Z;
}.

Definition set_nodes (f : list ListNode → list ListNode) (s : List) : List :=
  mkList (f (nodes s)) (_head s) (_tail s) (_size s).
Definition set_head (h : option loc) (s : List) : List :=
  mkList (nodes s) h (_tail s) (_size s).
Definition set_tail (t : option loc) (s : List) : List :=
  mkList (nodes s) (_head s) t (_size s).
Definition set_size (n : Z) (s : List) : List :=
  mkList (nodes s) (_head s) (_tail s) n.

(** [ListNode(value)]: a new object, at a location no reference holds. *)
Definition ListNode_new (value : T) : M List loc :=
  λ s, (Ret (length (nodes s)),
        set_nodes (λ σ, σ ++ [mkNode value None None]) s).

(** [r.attr] for a reference [r]. *)
Definition deref (r : option loc) : M List (loc * ListNode) :=
  λ s, match r with
       | None => (Raise AttributeError, s)
       | Some l => match nodes s !! l with
                   | Some n => (Ret (l, n), s)
                   | None => (Raise DanglingRef, s)
                   end
       end.

Definition get_data (r : option loc) : M List T :=
  ln <- deref r ;; ret (data ln.2).
Definition get_next (r : option loc) : M List (option loc) :=
  ln <- deref r ;; ret (next ln.2).
Definition get_prev (r : option loc) : M List (option loc) :=
  ln <- deref r ;; ret (prev ln.2).

(** [r.next = x] and [r.prev = x]. *)
Definition put_next (r : option loc) (x : option loc) : M List unit :=
  ln <- deref r ;;
  modify (set_nodes (λ σ, <[ln.1 := mkNode (data ln.2) x (prev ln.2)]> σ)).
Definition put_prev (r : option loc) (x : option loc) : M List unit :=
  ln <- deref r ;;
  modify (set_nodes (λ σ, <[ln.1 := mkNode (data ln.2) (next ln.2) x]> σ)).

Definition size : M List Z := gets _size.
Definition empty : M List bool := gets (λ s, bool_decide (_size s = 0)).

Definition push_front (value : T) : M List unit :=
  new_node <- ListNode_new value ;;
  e <- empty ;;
  (if e : bool then
     modify (set_head (Some new_node)) ;;;
     modify (set_tail (Some new_node))
   else
     h <- gets _head ;;
     put_next (Some new_node) h ;;;
     h <- gets _head ;;
     put_prev h (Some new_node) ;;;
     modify (set_head (Some new_node))) ;;;
  n <- gets _size ;;
  modify (set_size (n + 1)).

Definition push_back (value : T) : M List unit :=
  new_node <- ListNode_new value ;;
  e <- empty ;;
  (if e : bool then
     modify (set_head (Some new_node)) ;;;
     modify (set_tail (Some new_node))
   else
     t <- gets _tail ;;
     put_next t (Some new_node) ;;;
     t <- gets _tail ;;
     put_prev (Some new_node) t ;;;
     modify (set_tail (Some new_node))) ;;;
  n <- gets _size ;;
  modify (set_size (n + 1)).

Definition pop_front : M List T :=
  e <- empty ;;
  if e : bool then raise (IndexError "List is empty") else
  h <- gets _head ;;
  value <- get_data h ;;
  h <- gets _head ;;
  t <- gets _tail ;;
  (if bool_decide (h = t) then
     modify (set_head None) ;;;
     modify (set_tail None)
   else
     h <- gets _head ;;
     nx <- get_next h ;;
     modify (set_head nx) ;;;
     h <- gets _head ;;
     put_prev h None) ;;;
  n <- gets _size ;;
  modify (set_size (n - 1)) ;;;
  ret value.

Definition pop_back : M List T :=
  e <- empty ;;
  if e : bool then raise (IndexError "List is empty") else
  t <- gets _tail ;;
  value <- get_data t ;;
  h <- gets _head ;;
  t <- gets _tail ;;
  (if bool_decide (h = t) then
     modify (set_head None) ;;;
     modify (set_tail None)
   else
     t <- gets _tail ;;
     pv <- get_prev t ;;
     modify (set_tail pv) ;;;
     t <- gets _tail ;;
     put_next t None) ;;;
  n <- gets _size ;;
  modify (set_size (n - 1)) ;;;
  ret value.

Definition front : M List T :=
  e <- empty ;;
  if e : bool then raise (IndexError "List is empty") else
  h <- gets _head ;;
  get_data h.

Definition back : M List T :=
  e <- empty ;;
  if e : bool then raise (IndexError "List is empty") else
  t <- gets _tail ;;
  get_data t.

Definition clear : M List unit :=
  modify (set_head None) ;;;
  modify (set_tail None) ;;;
  modify (set_size 0).

(** [for element in initial_elements: self.push_back(element)]. *)
Fixpoint push_back_all (elements : list T) : M List unit :=
  match elements with
  | [] => ret tt
  | element :: rest => push_back element ;;; push_back_all rest
  end.

(** [List(initial_elements)]; [None] is the default argument, and an
    empty list is as falsy as [None]. *)
Definition List_init (initial_elements : option (list T)) : outcome unit * List :=
  let s := mkList [] None None 0 in
  match initial_elements with
  | None | Some [] => (Ret tt, s)
  | Some elements => push_back_all elements s
  end.

(** [__iter__] is a generator: its frame holds [current]; each [next()]
    on it either yields [current.data] and moves on, or stops. *)
Definition iter_start (s : List) : option loc := _head s.

Definition iter_next (current : option loc) : M List (option (T * option loc)) :=
  match current with
  | None => ret None
  | Some _ =>
      d <- get_data current ;;
      nx <- get_next current ;;
      ret (Some (d, nx))
  end.

(** Drawing from the generator until it stops, with at most [fuel]
    yields: [None] when the fuel does not suffice. *)
Fixpoint iter_collect (fuel : nat) (current : option loc) (s : List)
  : option (outcome (list T)) :=
  match iter_next current s with
  | (Raise e, _) => Some (Raise e)
  | (Ret None, _) => Some (Ret [])
  | (Ret (Some (d, nx)), _) =>
      match fuel with
      | O => None
      | S fuel' =>
          match iter_collect fuel' nx s with
          | Some (Ret ds) => Some (Ret (d :: ds))
          | other => other
          end
      end
  end.

(** [list(lst)]. *)
Definition to_list (fuel : nat) (s : List) : option (outcome (list T)) :=
  iter_collect fuel (iter_start s) s.

(** The nodes met by following [next] from a reference, with the same
    convention on fuel. *)
Fixpoint nodes_from (fuel : nat) (σ : list ListNode) (current : option loc)
  : option (list loc) :=
  match current with
  | None => Some []
  | Some l =>
      match fuel, σ !! l with
      | S fuel', Some n => (l ::.) <$> nodes_from fuel' σ (next n)
      | _, _ => None
      end
  end.

(** *** The representation *)

(** [rep s cells]: the list [s] is the chain of the nodes [cells.*1],
    front to back, holding the values [cells.*2]: the node of every cell
    is in the store with exactly the links of its neighbours, the nodes
    are pairwise distinct, and [_head], [_tail] and [_size] are the
    first node, the last node and the number of cells. *)
Definition node_at (cells : list (loc * T)) (i : nat) (v : T) : ListNode :=
  mkNode v (fst <$> cells !! S i)
           (match i with O => None | S j => fst <$> cells !! j end).

Record rep (s : List) (cells : list (loc * T)) : Prop := mkRep {
  rep_nodup : NoDup cells.*1;
  rep_head : _head s = fst <$> head cells;
  rep_tail : _tail s = fst <$> last cells;
  rep_size : _size s = Z.of_nat (length cells);
  rep_nodes : ∀ i l v, cells !! i = Some (l, v) →
                       nodes s !! l = Some (node_at cells i v);
}.

(** The invariant as the specification words it, on the store itself. *)
Record rep_invariant (s : List) : Prop := mkInv {
  (* when non-empty, head.prev is empty and tail.next is empty *)
  inv_ends : _size s ≠ 0 →
    (∃ h n, _head s = Some h ∧ nodes s !! h = Some n ∧ prev n = None) ∧
    (∃ t n, _tail s = Some t ∧ nodes s !! t = Some n ∧ next n = None);
  (* size is the number of nodes reachable by next from head, and for
     adjacent nodes a.next == b of them, b.prev == a *)
  inv_chain : ∃ ls,
    nodes_from (Z.to_nat (_size s)) (nodes s) (_head s) = Some ls ∧
    _size s = Z.of_nat (length ls) ∧
    ∀ a b na, a ∈ ls → nodes s !! a = Some na → next na = Some b →
              ∃ nb, nodes s !! b = Some nb ∧ prev nb = Some a;
  (* size == 0 iff head and tail are both empty *)
  inv_empty : _size s = 0 ↔ _head s = None ∧ _tail s = None;
  (* size == 1 iff head and tail are the same node *)
  inv_single : _size s = 1 ↔ ∃ l, _head s = Some l ∧ _tail s = Some l;
}.

(** *** Calls and traces *)

(** A call of a method of [List], and what a call returns. *)
Inductive call : Type :=
| PushFront (v : T)
| PushBack (v : T)
| PopFront
| PopBack
| Front
| Back
| Size
| Empty
| Clear.

Inductive value : Type :=
| VNone
| VElem (v : T)
| VInt (n : Z)
| VBool (b : bool).

Definition lift {A} (f : A → value) (m : M List A) : M List value :=
  a <- m ;; ret (f a).

Definition exec (c : call) : M List value :=
  match c with
  | PushFront v => lift (λ _, VNone) (push_front v)
  | PushBack v => lift (λ _, VNone) (push_back v)
  | PopFront => lift VElem pop_front
  | PopBack => lift VElem pop_back
  | Front => lift VElem front
  | Back => lift VElem back
  | Size => lift VInt size
  | Empty => lift VBool empty
  | Clear => lift (λ _, VNone) clear
  end.

(** A caller that catches every exception and goes on: the outcomes of
    the calls, in order, and the final state. *)
Fixpoint run (cs : list call) (s : List) : list (outcome value) * List :=
  match cs with
  | [] => ([], s)
  | c :: cs' =>
      let '(o, s') := exec c s in
      let '(os, s'') := run cs' s' in
      (o :: os, s'')
  end.

(** The states a caller can bring a list to: construction, then calls. *)
Inductive reachable : List → Prop :=
| reachable_init initial_elements :
    reachable (List_init initial_elements).2
| reachable_call c s :
    reachable s → reachable (exec c s).2.

(** *** The reference double-ended queue *)

(** What a caller observes of a call: the value, or the kind of error
    (the message of an [IndexError] is not part of the specification). *)
Inductive observation : Type :=
| Returned (v : value)
| EmptyContainer
| OtherError (e : exn).

Definition observe (o : outcome value) : observation :=
  match o with
  | Ret v => Returned v
  | Raise (IndexError _) => EmptyContainer
  | Raise e => OtherError e
  end.

(** The reference: a double-ended queue as a sequence of values, front
    first, with the operations of section 4.1 read as operations on the
    sequence. *)
Definition ref_step (c : call) (q : list T) : observation * list T :=
  match c with
  | PushFront v => (Returned VNone, v :: q)
  | PushBack v => (Returned VNone, q ++ [v])
  | PopFront => match q with
                | [] => (EmptyContainer, q)
                | v :: q' => (Returned (VElem v), q')
                end
  | PopBack => match last q with
               | None => (EmptyContainer, q)
               | Some v => (Returned (VElem v), removelast q)
               end
  | Front => match q with
             | [] => (EmptyContainer, q)
             | v :: _ => (Returned (VElem v), q)
             end
  | Back => match last q with
            | None => (EmptyContainer, q)
            | Some v => (Returned (VElem v), q)
            end
  | Size => (Returned (VInt (Z.of_nat (length q))), q)
  | Empty => (Returned (VBool (bool_decide (length q = 0%nat))), q)
  | Clear => (Returned VNone, [])
  end.

Fixpoint ref_run (cs : list call) (q : list T) : list observation * list T :=
  match cs with
  | [] => ([], q)
  | c :: cs' =>
      let '(o, q') := ref_step c q in
      let '(os, q'') := ref_run cs' q' in
      (o :: os, q'')
  end.

End Model.
Arguments ListNode : clear implicits.
Arguments List : clear implicits.
Arguments call : clear implicits.
Arguments value : clear implicits.
Arguments observation : clear implicits.
End LinkedSequence.

(** ** Python values *)

Module PyValue.

(** The values the priority queue is used with: [int], [str], and the
    two-element tuple that [PriorityQueue.push] builds.  ([float] is left
    out: its arithmetic is not modelled.) *)
Inductive pyval : Type :=
| PyInt (n : Z)
| PyStr (s : string)
| PyTuple2 (a b : pyval).

(** [isinstance(value, (int, float))]. *)
Definition isinstance_number (value : pyval) : bool :=
  match value with PyInt _ => true | _ => false end.

(** [-value]. *)
Definition py_neg (value : pyval) : outcome pyval :=
  match value with
  | PyInt n => Ret (PyInt (- n))
  | _ => Raise TypeError
  end.

(** [x == y]: never raises on these values; values of different types
    are unequal. *)
Fixpoint py_eq (x y : pyval) : bool :=
  match x, y with
  | PyInt a, PyInt b => (a =? b)%Z
  | PyStr a, PyStr b => String.eqb a b
  | PyTuple2 a1 a2, PyTuple2 b1 b2 => py_eq a1 b1 && py_eq a2 b2
  | _, _ => false
  end.

(** [x < y]: the order of the integers, the order of strings by code
    point, and for tuples the order of the first pair of items that are
    not [==]; [TypeError] between values of different types. *)
Fixpoint py_lt (x y : pyval) : outcome bool :=
  match x, y with
  | PyInt a, PyInt b => Ret (a <? b)%Z
  | PyStr a, PyStr b => Ret (String.ltb a b)
  | PyTuple2 a1 a2, PyTuple2 b1 b2 =>
      if negb (py_eq a1 b1) then py_lt a1 b1
      else if negb (py_eq a2 b2) then py_lt a2 b2
      else Ret false
  | _, _ => Raise TypeError
  end.

End PyValue.

Import PyValue.

(** ** The [heapq] module

  [heapq] is the module of the Python standard library that
  [PriorityQueue] delegates to; it is not part of the repository.  Its
  functions are transcribed from the library's [heapq.py], over a Python
  list of values: a min-heap under [<].

  CPython runs a C version of these functions where it has one.  It
  returns and raises as [heapq.py] does and changes the length of the
  list at the same points, but it sifts by swapping items: when a
  comparison raises in the middle of a sift, the C version leaves a
  permutation of the items, [heapq.py] a list in which one item is
  there twice and the item being sifted is missing.  Where the first
  comparison of a sift raises, nothing has moved in either. *)

Module heapq.

(** The operations of a Python [list] that [heapq] uses. *)
Definition getitem (i : nat) : M (list pyval) pyval :=
  λ heap, match heap !! i with
          | Some x => (Ret x, heap)
          | None => (Raise (IndexError "list index out of range"), heap)
          end.

Definition setitem (i : nat) (x : pyval) : M (list pyval) unit :=
  λ heap, if decide (i < length heap)%nat
          then (Ret tt, <[i := x]> heap)
          else (Raise (IndexError "list assignment index out of range"), heap).

Definition append (x : pyval) : M (list pyval) unit :=
  modify (λ heap, heap ++ [x]).

Definition list_pop : M (list pyval) pyval :=
  λ heap, match last heap with
          | Some x => (Ret x, removelast heap)
          | None => (Raise (IndexError "pop from empty list"), heap)
          end.

Definition len : M (list pyval) nat := gets length.

Definition lt (x y : pyval) : M (list pyval) bool :=
  λ heap, (py_lt x y, heap).

(** The [while] loop of [_siftdown]: it moves parents down and returns
    the position at which [newitem] belongs.  [pos - 1] is only
    evaluated when [pos > startpos >= 0]. *)
Equations? siftdown_loop (newitem : pyval) (startpos pos : nat)
  : M (list pyval) nat by wf pos Nat.lt :=
  siftdown_loop newitem startpos pos with decide (startpos < pos)%nat => {
    | left _ =>
        parent <- getitem (Nat.shiftr (pos - 1) 1) ;;
        b <- lt newitem parent ;;
        if b : bool then
          setitem pos parent ;;;
          siftdown_loop newitem startpos (Nat.shiftr (pos - 1) 1)
        else ret pos
    | right _ => ret pos }.
Proof.
  unfold Nat.lt. change (Nat.shiftr (pos - 1) 1) with (Nat.div2 (pos - 1)).
  pose proof (Nat.div2_decr (pos - 1) (pos - 1)). lia.
Qed.

Definition _siftdown (startpos pos : nat) : M (list pyval) unit :=
  newitem <- getitem pos ;;
  pos <- siftdown_loop newitem startpos pos ;;
  setitem pos newitem.

Definition heappush (item : pyval) : M (list pyval) unit :=
  append item ;;;
  n <- len ;;
  _siftdown 0 (n - 1).

(** The [while] loop of [_siftup]: it moves the smaller child up until a
    leaf is reached, and returns the position of that leaf. *)
Equations? siftup_loop (endpos pos : nat)
  : M (list pyval) nat by wf (endpos - pos)%nat Nat.lt :=
  siftup_loop endpos pos with decide (2 * pos + 1 < endpos)%nat => {
    | left _ =>
        right_smaller <-
          (if decide (2 * pos + 1 + 1 < endpos)%nat then
             l <- getitem (2 * pos + 1) ;;
             r <- getitem (2 * pos + 1 + 1) ;;
             b <- lt l r ;;
             ret (negb b)
           else ret false) ;;
        x <- getitem (if right_smaller : bool then 2 * pos + 1 + 1 else 2 * pos + 1) ;;
        setitem pos x ;;;
        siftup_loop endpos (if right_smaller then 2 * pos + 1 + 1 else 2 * pos + 1)
    | right _ => ret pos }.
Proof. destruct right_smaller; lia. Qed.

Definition _siftup (pos : nat) : M (list pyval) unit :=
  endpos <- len ;;
  newitem <- getitem pos ;;
  leaf <- siftup_loop endpos pos ;;
  setitem leaf newitem ;;;
  _siftdown pos leaf.

Definition heappop : M (list pyval) pyval :=
  lastelt <- list_pop ;;
  n <- len ;;
  if bool_decide (n ≠ 0%nat) then
    returnitem <- getitem 0 ;;
    setitem 0 lastelt ;;;
    _siftup 0 ;;;
    ret returnitem
  else ret lastelt.

End heapq.

(** ** [class PriorityQueue] *)

Module PriorityQueue.

Record PriorityQueue : Type := mkPQ {
  _data : list pyval;
  _reverse : bool;
  _compare : option (pyval → pyval → bool);
}.

(** A [heapq] function called on [self._data]. *)
Definition on_data {A} (m : M (list pyval) A) : M PriorityQueue A :=
  λ self, let '(o, heap) := m (_data self) in
          (o, mkPQ heap (_reverse self) (_compare self)).

Definition size : M PriorityQueue Z :=
  gets (λ self, Z.of_nat (length (_data self))).
Definition empty : M PriorityQueue bool :=
  gets (λ self, bool_decide (length (_data self) = 0%nat)).
Definition clear : M PriorityQueue unit :=
  on_data (modify (λ _, [])).

Definition lift_outcome {A} (o : outcome A) : M PriorityQueue A :=
  λ self, (o, self).

Definition push (value : pyval) : M PriorityQueue unit :=
  r <- gets _reverse ;;
  if r : bool then
    item <- (if isinstance_number value
             then lift_outcome (py_neg value)
             else ret (PyTuple2 value (PyInt (-1)))) ;;
    on_data (heapq.heappush item)
  else
    on_data (heapq.heappush value).

Definition pop : M PriorityQueue pyval :=
  e <- empty ;;
  if e : bool then raise (IndexError "Priority queue is empty") else
  value <- on_data heapq.heappop ;;
  r <- gets _reverse ;;
  if r && isinstance_number value then lift_outcome (py_neg value)
  else ret value.

Definition top : M PriorityQueue pyval :=
  e <- empty ;;
  if e : bool then raise (IndexError "Priority queue is empty") else
  value <- on_data (heapq.getitem 0) ;;
  r <- gets _reverse ;;
  if r && isinstance_number value then lift_outcome (py_neg value)
  else ret value.

(** [for element in initial_elements: self.push(element)]. *)
Fixpoint push_all (elements : list pyval) : M PriorityQueue unit :=
  match elements with
  | [] => ret tt
  | element :: rest => push element ;;; push_all rest
  end.

(** [PriorityQueue(initial_elements, compare)]; [self._reverse] is
    [compare is None]. *)
Definition PriorityQueue_init (initial_elements : option (list pyval))
    (compare : option (pyval → pyval → bool)) : outcome unit * PriorityQueue :=
  let self := mkPQ [] (match compare with None => true | Some _ => false end) compare in
  match initial_elements with
  | None | Some [] => (Ret tt, self)
  | Some elements => push_all elements self
  end.

(** [n] calls of [pop], and the values they return. *)
Fixpoint pop_n (n : nat) : M PriorityQueue (list pyval) :=
  match n with
  | O => ret []
  | S n' => v <- pop ;; vs <- pop_n n' ;; ret (v :: vs)
  end.

(** [while not pq.empty(): out.append(pq.pop())]: every call of [pop]
    shortens [_data], so the loop runs at most [len(_data)] times. *)
Definition pop_all : M PriorityQueue (list pyval) :=
  λ self, pop_n (length (_data self)) self.

End PriorityQueue.

Module PQ := PriorityQueue.

(** ** Heap order *)

Module HeapOrder.

(** The parent of position [i > 0], as [_siftdown] computes it. *)
Definition parent (i : nat) : nat := Nat.shiftr (i - 1) 1.

(** [le x y]: [y < x] is defined and false. *)
Definition le (x y : pyval) : Prop := py_lt y x = Ret false.

(** The heap invariant of [heapq]: no item is smaller than its parent. *)
Definition heap_ok (heap : list pyval) : Prop :=
  ∀ i x p, (0 < i)%nat → heap !! i = Some x → heap !! parent i = Some p →
           le p x.

(** The heap invariant everywhere but around position [pos]: the item
    at [pos] is not compared, and the children of [pos] are compared
    with the parent of [pos] instead. *)
Record heap_except (pos : nat) (heap : list pyval) : Prop := mkExcept {
  except_other : ∀ i x p,
    (0 < i)%nat → i ≠ pos → parent i ≠ pos →
    heap !! i = Some x → heap !! parent i = Some p → le p x;
  except_grand : ∀ c x g,
    (0 < pos)%nat → (0 < c)%nat → parent c = pos →
    heap !! c = Some x → heap !! parent pos = Some g → le g x;
}.

(** The item at [pos] is not larger than its children. *)
Definition children_ok (pos : nat) (heap : list pyval) : Prop :=
  ∀ c x y, (0 < c)%nat → parent c = pos →
           heap !! c = Some x → heap !! pos = Some y → le y x.

(** The values of a list can be compared with each other: [<] raises on
    no two of them. *)
Definition comparable (l : list pyval) : Prop :=
  ∀ x y, x ∈ l → y ∈ l → ∃ b, py_lt x y = Ret b.

(** A class [P] of values that [<] orders. *)
Record order_class (P : pyval → Prop) : Prop := mkClass {
  class_total : ∀ x y, P x → P y → ∃ b, py_lt x y = Ret b;
  class_asym : ∀ x y, P x → P y → py_lt x y = Ret true → py_lt y x = Ret false;
  class_trans : ∀ x y z, P x → P y → P z → le x y → le y z → le x z;
}.

Definition is_int (x : pyval) : Prop := ∃ n, x = PyInt n.
Definition is_str (x : pyval) : Prop := ∃ s, x = PyStr s.

(** The integer a [PyInt] holds; 0 for another value. *)
Definition int_of (x : pyval) : Z :=
  match x with PyInt n => n | _ => 0%Z end.

End HeapOrder.

(** ** What the queue stores *)

Module Encoding.
Import PriorityQueue.

(** The item that [push(value)] hands to [heappush], and the value that
    [pop] and [top] make of an item of the heap. *)
Definition stored_item (reverse : bool) (value : pyval) : pyval :=
  if reverse then
    match value with
    | PyInt n => PyInt (- n)
    | _ => PyTuple2 value (PyInt (-1))
    end
  else value.

Definition returned_value (reverse : bool) (item : pyval) : pyval :=
  if reverse then
    match item with
    | PyInt n => PyInt (- n)
    | _ => item
    end
  else item.

(** The default ordering of the specification on integers and on
    strings: the greater value has the higher priority. *)
Definition higher_or_equal (x y : pyval) : Prop :=
  match x, y with
  | PyInt a, PyInt b => (b ≤ a)%Z
  | PyStr a, PyStr b => String.ltb a b = false
  | _, _ => False
  end.

(** The default queue and a queue with the comparator [compare], as
    their constructors leave them. *)
Definition default_queue : PriorityQueue :=
  (PriorityQueue_init None None).2.
Definition custom_queue (compare : pyval → pyval → bool) : PriorityQueue :=
  (PriorityQueue_init None (Some compare)).2.

(** The same queue with another comparator. *)
Definition with_compare (c : option (pyval → pyval → bool))
    (q : PriorityQueue) : PriorityQueue :=
  mkPQ (_data q) (_reverse q) c.

(** "Greater first" as a comparator: [lambda a, b: a > b]. *)
Definition greater (a b : pyval) : bool :=
  match py_lt b a with Ret true => true | _ => false end.

End Encoding.

(** ** Test programs *)

Module Programs.
Import PriorityQueue Encoding.

(** Push the elements in order, then pop until the queue is empty. *)
Definition push_then_pop_all (elements : list pyval)
  : M PriorityQueue (list pyval) :=
  push_all elements ;;; pop_all.

(** The list [List()]. *)
Definition empty_list : LinkedSequence.List Z :=
  (LinkedSequence.List_init None).2.

(** The list [List([1, 2, 3])]. *)
Definition list_123 : LinkedSequence.List Z :=
  (LinkedSequence.List_init (Some [1; 2; 3]%Z)).2.

(** The default queue after [push(3)], [push(1)], [push(4)]. *)
Definition queue_314 : PriorityQueue :=
  (push_all [PyInt 3; PyInt 1; PyInt 4] default_queue).2.

(** The default queue after [push(1)], [push(2)], [push(3)] and a
    [push("a")] that raised [TypeError]. *)
Definition queue_123a : PriorityQueue :=
  (push (PyStr "a") (push_all [PyInt 1; PyInt 2; PyInt 3] default_queue).2).2.

(** [x < y] raises on no two values of [l], as a test. *)
Definition comparableb (l : list pyval) : bool :=
  forallb (λ x, forallb (λ y, is_ret (py_lt x y)) l) l.

End Programs.

(** * The other containers of the file *)

(** ** Python's [list] and [collections.deque]

    The built-in sequences that [Vector], [Stack], [Queue] and [Deque]
    delegate to, as sequences of values.  An index is a Python [int]. *)

Module PyList.
Section Ops.
Context {T : Type}.

(** [l[i]] addresses position [i] for [0 <= i < len(l)] and position
    [len(l) + i] for [-len(l) <= i < 0]; no position otherwise. *)
Definition position (n : nat) (i : Z) : option nat :=
  if decide (0 ≤ i < Z.of_nat n) then Some (Z.to_nat i)
  else if decide (- Z.of_nat n ≤ i < 0) then Some (Z.to_nat (Z.of_nat n + i))
  else None.

(** [l[i]]. *)
Definition getitem (i : Z) : M (list T) T :=
  λ l, match position (length l) i with
       | Some p =>
           match l !! p with
           | Some x => (Ret x, l)
           | None => (Raise (IndexError "list index out of range"), l)
           end
       | None => (Raise (IndexError "list index out of range"), l)
       end.

(** [l[i] = x]. *)
Definition setitem (i : Z) (x : T) : M (list T) unit :=
  λ l, match position (length l) i with
       | Some p => (Ret tt, <[p := x]> l)
       | None => (Raise (IndexError "list assignment index out of range"), l)
       end.

(** [del l[i]]. *)
Definition delitem (i : Z) : M (list T) unit :=
  λ l, match position (length l) i with
       | Some p => (Ret tt, delete p l)
       | None => (Raise (IndexError "list assignment index out of range"), l)
       end.

(** [l.insert(i, x)]: a negative [i] counts from the end, and the
    position is clamped to [0 .. len(l)]; it never raises. *)
Definition insert_position (n : nat) (i : Z) : nat :=
  if decide (i < 0) then Z.to_nat (Z.max 0 (Z.of_nat n + i))
  else Z.to_nat (Z.min i (Z.of_nat n)).

Definition insert (i : Z) (x : T) : M (list T) unit :=
  modify (λ l, take (insert_position (length l) i) l ++
               x :: drop (insert_position (length l) i) l).

(** [l.append(x)], [l.pop()], [len(l)], [l.clear()]. *)
Definition append (x : T) : M (list T) unit :=
  modify (λ l, l ++ [x]).

Definition pop : M (list T) T :=
  λ l, match last l with
       | Some x => (Ret x, removelast l)
       | None => (Raise (IndexError "pop from empty list"), l)
       end.

Definition len : M (list T) Z := gets (λ l, Z.of_nat (length l)).

Definition clear : M (list T) unit := modify (λ _, []).

End Ops.
End PyList.

Module PyDeque.
Section Ops.
Context {T : Type}.

(** [d.appendleft(x)], [d.append(x)], [d.popleft()], [d.pop()]. *)
Definition appendleft (x : T) : M (list T) unit :=
  modify (λ d, x :: d).

Definition append (x : T) : M (list T) unit :=
  modify (λ d, d ++ [x]).

Definition popleft : M (list T) T :=
  λ d, match d with
       | x :: d' => (Ret x, d')
       | [] => (Raise (IndexError "pop from an empty deque"), d)
       end.

Definition pop : M (list T) T :=
  λ d, match last d with
       | Some x => (Ret x, removelast d)
       | None => (Raise (IndexError "pop from an empty deque"), d)
       end.

(** [d[i]] and [d[i] = x], with the positions of a list. *)
Definition getitem (i : Z) : M (list T) T :=
  λ d, match PyList.position (length d) i with
       | Some p =>
           match d !! p with
           | Some x => (Ret x, d)
           | None => (Raise (IndexError "deque index out of range"), d)
           end
       | None => (Raise (IndexError "deque index out of range"), d)
       end.

Definition setitem (i : Z) (x : T) : M (list T) unit :=
  λ d, match PyList.position (length d) i with
       | Some p => (Ret tt, <[p := x]> d)
       | None => (Raise (IndexError "deque index out of range"), d)
       end.

End Ops.
End PyDeque.

(** ** [class Vector]

    A [Vector] object is its only attribute, the list [_data]. *)

Module Vector.
Section Model.
Context {T : Type}.

(** [initial_elements.copy() if initial_elements else []]. *)
Definition Vector_init (initial_elements : option (list T)) : list T :=
  match initial_elements with
  | None | Some [] => []
  | Some elements => elements
  end.

Definition size : M (list T) Z := PyList.len.

Definition empty : M (list T) bool :=
  n <- PyList.len ;; ret (bool_decide (n = 0)).

Definition push_back (value : T) : M (list T) unit :=
  PyList.append value.

Definition pop_back : M (list T) T :=
  e <- empty ;;
  if e : bool then raise (IndexError "Vector is empty") else
  PyList.pop.

Definition at_ (index : Z) : M (list T) T :=
  n <- size ;;
  if bool_decide (index < 0) || bool_decide (index >= n)
  then raise (IndexError "Vector index out of range")
  else PyList.getitem index.

Definition front : M (list T) T :=
  e <- empty ;;
  if e : bool then raise (IndexError "Vector is empty") else
  PyList.getitem 0.

Definition back : M (list T) T :=
  e <- empty ;;
  if e : bool then raise (IndexError "Vector is empty") else
  PyList.getitem (-1).

Definition clear : M (list T) unit := PyList.clear.

Definition insert (index : Z) (value : T) : M (list T) unit :=
  n <- size ;;
  if bool_decide (index < 0) || bool_decide (index > n)
  then raise (IndexError "Vector index out of range")
  else PyList.insert index value.

Definition erase (index : Z) : M (list T) unit :=
  n <- size ;;
  if bool_decide (index < 0) || bool_decide (index >= n)
  then raise (IndexError "Vector index out of range")
  else PyList.delitem index.

Definition __getitem__ (index : Z) : M (list T) T :=
  PyList.getitem index.

Definition __setitem__ (index : Z) (value : T) : M (list T) unit :=
  PyList.setitem index value.

End Model.
End Vector.

(** ** [class Stack]: [_data] is a list, the top is its end *)

Module Stack.
Section Model.
Context {T : Type}.

Definition size : M (list T) Z := PyList.len.

Definition empty : M (list T) bool :=
  n <- PyList.len ;; ret (bool_decide (n = 0)).

Definition push (value : T) : M (list T) unit :=
  PyList.append value.

Definition pop : M (list T) T :=
  e <- empty ;;
  if e : bool then raise (IndexError "Stack is empty") else
  PyList.pop.

Definition top : M (list T) T :=
  e <- empty ;;
  if e : bool then raise (IndexError "Stack is empty") else
  PyList.getitem (-1).

Definition clear : M (list T) unit := PyList.clear.

(** [for element in initial_elements: self.push(element)]. *)
Fixpoint push_all (elements : list T) : M (list T) unit :=
  match elements with
  | [] => ret tt
  | element :: rest => push element ;;; push_all rest
  end.

Definition Stack_init (initial_elements : option (list T))
  : outcome unit * list T :=
  match initial_elements with
  | None | Some [] => (Ret tt, [])
  | Some elements => push_all elements []
  end.

(** [n] calls of [pop], and the values they return. *)
Fixpoint pop_n (n : nat) : M (list T) (list T) :=
  match n with
  | O => ret []
  | S n' => v <- pop ;; vs <- pop_n n' ;; ret (v :: vs)
  end.

End Model.
End Stack.

(** ** [class Queue]: [_data] is a deque, the front is its left end *)

Module Queue.
Section Model.
Context {T : Type}.

Definition size : M (list T) Z := PyList.len.

Definition empty : M (list T) bool :=
  n <- PyList.len ;; ret (bool_decide (n = 0)).

Definition push (value : T) : M (list T) unit :=
  PyDeque.append value.

Definition pop : M (list T) T :=
  e <- empty ;;
  if e : bool then raise (IndexError "Queue is empty") else
  PyDeque.popleft.

Definition front : M (list T) T :=
  e <- empty ;;
  if e : bool then raise (IndexError "Queue is empty") else
  PyDeque.getitem 0.

Definition back : M (list T) T :=
  e <- empty ;;
  if e : bool then raise (IndexError "Queue is empty") else
  PyDeque.getitem (-1).

Definition clear : M (list T) unit := PyList.clear.

Fixpoint push_all (elements : list T) : M (list T) unit :=
  match elements with
  | [] => ret tt
  | element :: rest => push element ;;; push_all rest
  end.

Definition Queue_init (initial_elements : option (list T))
  : outcome unit * list T :=
  match initial_elements with
  | None | Some [] => (Ret tt, [])
  | Some elements => push_all elements []
  end.

Fixpoint pop_n (n : nat) : M (list T) (list T) :=
  match n with
  | O => ret []
  | S n' => v <- pop ;; vs <- pop_n n' ;; ret (v :: vs)
  end.

End Model.
End Queue.

(** ** [class Deque]: [_data] is a deque *)

Module Deque.
Section Model.
Context {T : Type}.

(** [deque(initial_elements if initial_elements else [])]. *)
Definition Deque_init (initial_elements : option (list T)) : list T :=
  match initial_elements with
  | None | Some [] => []
  | Some elements => elements
  end.

Definition size : M (list T) Z := PyList.len.

Definition empty : M (list T) bool :=
  n <- PyList.len ;; ret (bool_decide (n = 0)).

Definition push_front (value : T) : M (list T) unit :=
  PyDeque.appendleft value.

Definition push_back (value : T) : M (list T) unit :=
  PyDeque.append value.

Definition pop_front : M (list T) T :=
  e <- empty ;;
  if e : bool then raise (IndexError "Deque is empty") else
  PyDeque.popleft.

Definition pop_back : M (list T) T :=
  e <- empty ;;
  if e : bool then raise (IndexError "Deque is empty") else
  PyDeque.pop.

Definition front : M (list T) T :=
  e <- empty ;;
  if e : bool then raise (IndexError "Deque is empty") else
  PyDeque.getitem 0.

Definition back : M (list T) T :=
  e <- empty ;;
  if e : bool then raise (IndexError "Deque is empty") else
  PyDeque.getitem (-1).

Definition at_ (index : Z) : M (list T) T :=
  n <- size ;;
  if bool_decide (index < 0) || bool_decide (index >= n)
  then raise (IndexError "Deque index out of range")
  else PyDeque.getitem index.

Definition clear : M (list T) unit := PyList.clear.

(** The calls of [List], made on a [Deque]. *)
Definition exec (c : LinkedSequence.call T)
  : M (list T) (LinkedSequence.value T) :=
  match c with
  | LinkedSequence.PushFront v =>
      _ <- push_front v ;; ret LinkedSequence.VNone
  | LinkedSequence.PushBack v =>
      _ <- push_back v ;; ret LinkedSequence.VNone
  | LinkedSequence.PopFront => v <- pop_front ;; ret (LinkedSequence.VElem v)
  | LinkedSequence.PopBack => v <- pop_back ;; ret (LinkedSequence.VElem v)
  | LinkedSequence.Front => v <- front ;; ret (LinkedSequence.VElem v)
  | LinkedSequence.Back => v <- back ;; ret (LinkedSequence.VElem v)
  | LinkedSequence.Size => n <- size ;; ret (LinkedSequence.VInt n)
  | LinkedSequence.Empty => b <- empty ;; ret (LinkedSequence.VBool b)
  | LinkedSequence.Clear => _ <- clear ;; ret LinkedSequence.VNone
  end.

Fixpoint run (cs : list (LinkedSequence.call T)) (d : list T)
  : list (outcome (LinkedSequence.value T)) * list T :=
  match cs with
  | [] => ([], d)
  | c :: cs' =>
      let '(o, d') := exec c d in
      let '(os, d'') := run cs' d' in
      (o :: os, d'')
  end.

End Model.
End Deque.

(** ** [class StlSet]: [_data] is a Python [set]

    The elements are hashable values with their own equality: a countable
    type. *)

Module StlSet.
Section Model.
Context `{Countable T}.

(** [set(initial_elements) if initial_elements else set()]. *)
Definition StlSet_init (initial_elements : option (list T)) : gset T :=
  match initial_elements with
  | None | Some [] => ∅
  | Some elements => list_to_set elements
  end.

Definition contains (value : T) : M (gset T) bool :=
  gets (λ d, bool_decide (value ∈ d)).

(** [self._data.add(value)] is reached only for a value not in the set,
    [self._data.remove(value)] only for a value in it. *)
Definition insert (value : T) : M (gset T) bool :=
  present <- gets (λ d, bool_decide (value ∈ d)) ;;
  if present : bool then ret false else
  modify (λ d, {[value]} ∪ d) ;;;
  ret true.

Definition erase (value : T) : M (gset T) Z :=
  present <- gets (λ d, bool_decide (value ∈ d)) ;;
  if present : bool then
    modify (λ d, d ∖ {[value]}) ;;;
    ret 1
  else ret 0.

Definition size : M (gset T) Z :=
  gets (λ d, Z.of_nat (stdpp.base.size d)).

Definition empty : M (gset T) bool :=
  gets (λ d, bool_decide (stdpp.base.size d = 0%nat)).

Definition clear : M (gset T) unit := modify (λ _, ∅).

End Model.
End StlSet.

(** ** [class StlMap]: [_data] is a Python [dict]

    The keys are hashable values: a countable type.  The order in which a
    [dict] keeps its items is not modelled, and with it [values], [items],
    [__iter__] and [__str__]. *)

Module StlMap.
Section Model.
Context `{Countable K} {V : Type}.

(** What a lookup that can raise [KeyError] gives: [at] raises
    [KeyError(f"Key {key} not found in map")], and the [dict] itself
    raises [KeyError(key)].  Neither method assigns to [_data]. *)
Inductive lookup_result : Type :=
| Found (value : V)
| KeyError_not_found_in_map (key : K)
| KeyError (key : K).

Definition contains (key : K) : M (gmap K V) bool :=
  gets (λ d, bool_decide (key ∈ dom d)).

Definition insert (key : K) (value : V) : M (gmap K V) bool :=
  present <- gets (λ d, bool_decide (key ∈ dom d)) ;;
  if present : bool then ret false else
  modify (λ d, <[key := value]> d) ;;;
  ret true.

Definition erase (key : K) : M (gmap K V) Z :=
  present <- gets (λ d, bool_decide (key ∈ dom d)) ;;
  if present : bool then
    modify (λ d, delete key d) ;;;
    ret 1
  else ret 0.

(** [self._data.get(key)]: [None] for a key that is not there. *)
Definition find (key : K) : M (gmap K V) (option V) :=
  gets (λ d, d !! key).

Definition at_ (key : K) (d : gmap K V) : lookup_result :=
  if bool_decide (key ∉ dom d) then KeyError_not_found_in_map key
  else match d !! key with
       | Some value => Found value
       | None => KeyError key
       end.

Definition __getitem__ (key : K) (d : gmap K V) : lookup_result :=
  match d !! key with
  | Some value => Found value
  | None => KeyError key
  end.

Definition __setitem__ (key : K) (value : V) : M (gmap K V) unit :=
  modify (λ d, <[key := value]> d).

Definition size : M (gmap K V) Z :=
  gets (λ d, Z.of_nat (stdpp.base.size d)).

Definition empty : M (gmap K V) bool :=
  gets (λ d, bool_decide (stdpp.base.size d = 0%nat)).

Definition clear : M (gmap K V) unit := modify (λ _, ∅).

Definition keys : M (gmap K V) (gset K) := gets dom.

(** [for key, value in initial_elements: self.insert(key, value)]. *)
Fixpoint insert_all (elements : list (K * V)) : M (gmap K V) unit :=
  match elements with
  | [] => ret tt
  | (key, value) :: rest => insert key value ;;; insert_all rest
  end.

Definition StlMap_init (initial_elements : option (list (K * V)))
  : outcome unit * gmap K V :=
  match initial_elements with
  | None | Some [] => (Ret tt, ∅)
  | Some elements => insert_all elements ∅
  end.

(** The value of the first pair of [elements] with the key [key]. *)
Fixpoint first_value (key : K) (elements : list (K * V)) : option V :=
  match elements with
  | [] => None
  | (k, v) :: rest => if decide (k = key) then Some v else first_value key rest
  end.

End Model.
Arguments lookup_result : clear implicits.
End StlMap.

(** ** [class MultiMap]: [_data] is a [dict] from keys to lists of values

    As for [StlMap], the order of the keys is not modelled, and with it
    [keys], [values], [items] and [__str__].  [find] returns the list of
    the values; that the caller gets the list object of the map itself is
    not modelled. *)

Module MultiMap.
Section Model.
Context `{Countable K} `{EqDecision V}.

(** [l.remove(value)] for a value that is in [l]: the first occurrence
    goes. *)
Fixpoint remove_first (value : V) (l : list V) : list V :=
  match l with
  | [] => []
  | x :: l' => if decide (x = value) then l' else x :: remove_first value l'
  end.

(** [if key not in self._data: self._data[key] = []] and then
    [self._data[key].append(value)], on the list that is there by then. *)
Definition insert (key : K) (value : V) : M (gmap K (list V)) unit :=
  present <- gets (λ d, bool_decide (key ∈ dom d)) ;;
  (if present : bool then ret tt
   else modify (λ d, <[key := []]> d)) ;;;
  modify (λ d, alter (λ values, values ++ [value]) key d).

Definition erase (key : K) : M (gmap K (list V)) Z :=
  present <- gets (λ d, bool_decide (key ∈ dom d)) ;;
  if present : bool then
    count <- gets (λ d, Z.of_nat (length (default [] (d !! key)))) ;;
    modify (λ d, delete key d) ;;;
    ret count
  else ret 0.

Definition erase_one (key : K) (value : V) : M (gmap K (list V)) Z :=
  present <- gets (λ d, bool_decide (key ∈ dom d) &&
                        bool_decide (value ∈ default [] (d !! key))) ;;
  if present : bool then
    modify (λ d, alter (remove_first value) key d) ;;;
    now_empty <- gets (λ d, bool_decide (default [] (d !! key) = [])) ;;
    (if now_empty : bool then modify (λ d, delete key d) else ret tt) ;;;
    ret 1
  else ret 0.

(** [self._data.get(key, [])]. *)
Definition find (key : K) : M (gmap K (list V)) (list V) :=
  gets (λ d, default [] (d !! key)).

Definition contains (key : K) : M (gmap K (list V)) bool :=
  gets (λ d, bool_decide (key ∈ dom d)).

Definition count (key : K) : M (gmap K (list V)) Z :=
  gets (λ d, Z.of_nat (length (default [] (d !! key)))).

(** [sum(len(values) for values in self._data.values())]. *)
Definition total (d : gmap K (list V)) : Z :=
  map_fold (λ _ (values : list V) n, Z.of_nat (length values) + n) 0 d.

Definition size : M (gmap K (list V)) Z := gets total.

Definition empty : M (gmap K (list V)) bool :=
  gets (λ d, bool_decide (stdpp.base.size d = 0%nat)).

Definition clear : M (gmap K (list V)) unit := modify (λ _, ∅).

Fixpoint insert_all (elements : list (K * V)) : M (gmap K (list V)) unit :=
  match elements with
  | [] => ret tt
  | (key, value) :: rest => insert key value ;;; insert_all rest
  end.

Definition MultiMap_init (initial_elements : option (list (K * V)))
  : outcome unit * gmap K (list V) :=
  match initial_elements with
  | None | Some [] => (Ret tt, ∅)
  | Some elements => insert_all elements ∅
  end.

(** A call that changes a [MultiMap], and the maps a caller can bring
    about: construction, then calls. *)
Inductive call : Type :=
| Insert (key : K) (value : V)
| Erase (key : K)
| EraseOne (key : K) (value : V)
| Clear.

Definition exec (c : call) (d : gmap K (list V)) : gmap K (list V) :=
  match c with
  | Insert key value => (insert key value d).2
  | Erase key => (erase key d).2
  | EraseOne key value => (erase_one key value d).2
  | Clear => (clear d).2
  end.

Inductive reachable : gmap K (list V) → Prop :=
| reachable_init initial_elements :
    reachable (MultiMap_init initial_elements).2
| reachable_call c d :
    reachable d → reachable (exec c d).

(** No key of the map has an empty list of values. *)
Definition no_empty_list (d : gmap K (list V)) : Prop :=
  ∀ key, d !! key ≠ Some [].

End Model.
End MultiMap.

(** * [function.py] *)

Module Functions.

(** [multiply], called with any number of integers. *)
Definition multiply (args : list Z) : Z :=
  fold_left (λ result num, result * num) args 1.

(** [s[:-2]]: the string without its last two characters. *)
Definition drop_last_two (s : string) : string :=
  String.substring 0 (String.length s - 2) s.

(** [introduce]: the keyword arguments in the order of the call,
    [format] being what an f-string makes of a value. *)
Definition introduce {V} (format : V → string) (kwargs : list (string * V))
  : string :=
  drop_last_two
    (fold_left (λ introduction '(key, value),
                  introduction +:+ (key +:+ ": " +:+ format value +:+ ", "))
               kwargs "This is ").

(** [factorial(n)] on integers, with [depth] the number of calls the
    interpreter still allows: [None] is [RecursionError]. *)
Fixpoint factorial (depth : nat) (n : Z) : option Z :=
  match depth with
  | O => None
  | S depth' =>
      if n =? 0 then Some 1
      else r ← factorial depth' (n - 1); Some (n * r)
  end.

End Functions.

(** * Proofs *)

(** ** The linked list *)

Module ListFacts.
Import LinkedSequence.

Section ListProofs.
Context {T : Type}.
Implicit Types (s : List T) (cells : list (loc * T)) (v : T) (l : loc).

Lemma rep_loc_lt s cells i l v :
  rep s cells → cells !! i = Some (l, v) → (l < length (nodes s))%nat.
Proof.
  intros Hr Hi. apply (rep_nodes _ _ Hr) in Hi. by apply lookup_lt_Some in Hi.
Qed.

Lemma rep_loc_inj s cells i j l v w :
  rep s cells → cells !! i = Some (l, v) → cells !! j = Some (l, w) → i = j.
Proof.
  intros Hr Hi Hj.
  eapply NoDup_lookup; [apply (rep_nodup _ _ Hr) | |];
    rewrite list_lookup_fmap; [by rewrite Hi | by rewrite Hj].
Qed.

Ltac len := rewrite ?length_insert, ?length_app, ?length_insert in *; simpl in *; lia.

Ltac munfold :=
  unfold push_front, push_back, pop_front, pop_back, front, back, clear,
    size, empty, get_data, get_next, get_prev, put_next, put_prev, deref,
    ListNode_new, bind, ret, raise, gets, modify,
    set_nodes, set_head, set_tail, set_size; simpl.

Lemma push_front_rep s cells v :
  rep s cells →
  ∃ s', push_front v s = (Ret tt, s') ∧
        rep s' ((length (nodes s), v) :: cells) ∧
        _size s' = _size s + 1.
Proof.
  intros Hr.
  assert (Hlt : ∀ i l w, cells !! i = Some (l, w) → (l < length (nodes s))%nat)
    by (intros; by eapply rep_loc_lt).
  assert (Hinj : ∀ i j l w w', cells !! i = Some (l, w) → cells !! j = Some (l, w') → i = j)
    by (intros; by eapply rep_loc_inj).
  destruct s as [σ h t n].
  destruct Hr as [Hnd Hh Ht Hn Hnodes]. simpl in *.
  destruct cells as [|[l0 v0] cells]; simpl in *; subst.
  - eexists. split; [reflexivity|]. munfold. split; [|reflexivity].
    constructor; simpl; try done.
    + apply NoDup_singleton.
    + intros [|i] l w Hi; simplify_eq/=.
      by rewrite lookup_app_r, Nat.sub_diag.
  - pose proof (Hlt 0%nat l0 v0 eq_refl) as Hl0.
    pose proof (Hnodes 0%nat l0 v0 eq_refl) as Hn0.
    munfold.

    rewrite lookup_app_r, Nat.sub_diag by lia. simpl.
    rewrite list_lookup_insert_ne by lia.
    rewrite lookup_app_l by lia. rewrite Hn0. simpl.
    eexists. split; [reflexivity|]. split; [|reflexivity].
    constructor; simpl; try done.
    + apply NoDup_cons. split; [|done].
      intros Hin. apply list_elem_of_lookup in Hin as [i Hi].
      change ((((l0, v0) :: cells).*1) !! i = Some (length σ)) in Hi.
      rewrite list_lookup_fmap in Hi.
      destruct (((l0, v0) :: cells) !! i) as [[l w]|] eqn:E; simplify_eq/=.
      specialize (Hlt _ _ _ E). lia.
    + lia.
    + intros [|[|i]] l w Hi; simplify_eq/=.
      * rewrite list_lookup_insert_ne by lia.
        rewrite list_lookup_insert_eq by (rewrite length_app; simpl; lia).
        done.
      * rewrite list_lookup_insert_eq
          by (rewrite length_insert, length_app; simpl; lia).
        done.
      * assert (l ≠ l0) by (intros ->; by specialize (Hinj (S i) 0%nat _ _ _ Hi eq_refl)).
        pose proof (Hlt (S i) _ _ Hi).
        rewrite !list_lookup_insert_ne by lia.
        rewrite lookup_app_l by lia.
        by rewrite (Hnodes (S i) _ _ Hi).
Qed.

Lemma node_at_app_l cells cells' i v :
  (S i < length cells)%nat → node_at (cells ++ cells') i v = node_at cells i v.
Proof.
  intros Hi. unfold node_at. f_equal.
  - by rewrite lookup_app_l by lia.
  - destruct i as [|j]; [done|]. by rewrite lookup_app_l by lia.
Qed.

Lemma node_at_app_last cells c cells' i v :
  S i = length cells →
  node_at (cells ++ c :: cells') i v =
  mkNode v (Some c.1) (prev (node_at cells i v)).
Proof.
  intros Hi. unfold node_at. simpl. f_equal.
  - rewrite lookup_app_r by lia. by replace (S i - length cells)%nat with 0%nat by lia.
  - destruct i as [|j]; [done|]. by rewrite lookup_app_l by lia.
Qed.

Lemma node_at_last cells i v :
  S i = length cells → next (node_at cells i v) = None.
Proof.
  intros Hi. unfold node_at. simpl. by rewrite lookup_ge_None_2 by lia.
Qed.

Lemma cells_snoc cells :
  cells = [] ∨ ∃ cells' l v, cells = cells' ++ [(l, v)].
Proof.
  destruct cells as [|c cells _] using rev_ind; [by left|].
  right. destruct c as [l v]. eauto.
Qed.

Lemma push_back_rep s cells v :
  rep s cells →
  ∃ s', push_back v s = (Ret tt, s') ∧
        rep s' (cells ++ [(length (nodes s), v)]) ∧
        _size s' = _size s + 1.
Proof.
  intros Hr.
  assert (Hlt : ∀ i l w, cells !! i = Some (l, w) → (l < length (nodes s))%nat)
    by (intros; by eapply rep_loc_lt).
  assert (Hinj : ∀ i j l w w', cells !! i = Some (l, w) → cells !! j = Some (l, w') → i = j)
    by (intros; by eapply rep_loc_inj).
  destruct s as [σ h t n].
  destruct Hr as [Hnd Hh Ht Hn Hnodes]. simpl in *.
  destruct (cells_snoc cells) as [->|(cells' & lt & vt & ->)]; simpl in *; subst.
  - eexists. split; [reflexivity|]. munfold. split; [|reflexivity].
    constructor; simpl; try done.
    + apply NoDup_singleton.
    + intros [|i] l w Hi; simplify_eq/=.
      by rewrite lookup_app_r, Nat.sub_diag.
  - assert (Hlast : (cells' ++ [(lt, vt)]) !! length cells' = Some (lt, vt)).
    { by rewrite lookup_app_r, Nat.sub_diag by lia. }
    pose proof (Hlt _ _ _ Hlast) as Hl0.
    pose proof (Hnodes _ _ _ Hlast) as Hn0.
    rewrite length_app in *. simpl in *.
    munfold. rewrite last_snoc. simpl.
    replace (bool_decide (Z.of_nat (length cells' + 1) = 0)) with false
      by (symmetry; apply bool_decide_eq_false_2; lia).
    simpl. rewrite lookup_app_l by lia. rewrite Hn0. simpl.
    rewrite list_lookup_insert_ne by lia.
    rewrite lookup_app_r, Nat.sub_diag by lia. simpl.
    eexists. split; [reflexivity|]. split; [|simpl; lia].
    constructor; simpl.
    + rewrite fmap_app. apply NoDup_app. split; [done|]. split; [|apply NoDup_singleton].
      intros l Hin ->%list_elem_of_singleton.
      apply list_elem_of_lookup in Hin as [i Hi].
      rewrite list_lookup_fmap in Hi.
      destruct ((cells' ++ [(lt, vt)]) !! i) as [[l w]|] eqn:E; simplify_eq/=.
      specialize (Hlt _ _ _ E). lia.
    + rewrite <- app_assoc. by destruct cells'.
    + by rewrite last_snoc.
    + rewrite !length_app. simpl. lia.
    + intros i l w Hi.
      destruct (decide (i < length cells')%nat) as [Hlti|Hge].
      * assert (Hi' : (cells' ++ [(lt, vt)]) !! i = Some (l, w)).
        { rewrite lookup_app_l in Hi by len. done. }
        assert (l ≠ lt) by (intros ->; specialize (Hinj _ _ _ _ _ Hi' Hlast); lia).
        pose proof (Hlt _ _ _ Hi').
        rewrite !list_lookup_insert_ne by lia.
        rewrite lookup_app_l by lia.
        rewrite (Hnodes _ _ _ Hi').
        by rewrite (node_at_app_l (cells' ++ [(lt, vt)])) by len.
      * destruct (decide (i = length cells')) as [->|Hne].
        -- rewrite lookup_app_l in Hi by len.
           rewrite Hi in Hlast. simplify_eq.
           rewrite list_lookup_insert_ne by lia.
           rewrite list_lookup_insert_eq by len.
           rewrite node_at_app_last by len.
           done.
        -- assert (i = length (cells' ++ [(lt, vt)])) as ->.
           { apply lookup_lt_Some in Hi. rewrite !length_app in *. simpl in *. lia. }
           rewrite lookup_app_r, Nat.sub_diag in Hi by lia. simplify_eq/=.
           rewrite list_lookup_insert_eq
             by len.
           unfold node_at. rewrite length_app. simpl.
           rewrite lookup_ge_None_2 by len.
           replace (length cells' + 1)%nat with (S (length cells')) by lia.
           rewrite lookup_app_l by len.
           by rewrite Hlast.
Qed.

Lemma rep_nil s : rep s [] ↔ _head s = None ∧ _tail s = None ∧ _size s = 0.
Proof.
  split.
  - by intros [? ? ? ? ?].
  - intros (? & ? & ?). constructor; simpl; try done. apply NoDup_nil_2.
Qed.

Lemma rep_head_ne_tail s l0 v0 c cells :
  rep s ((l0, v0) :: c :: cells) → _head s ≠ _tail s.
Proof.
  intros Hr. rewrite (rep_head _ _ Hr), (rep_tail _ _ Hr), last_lookup.
  simpl. destruct ((c :: cells) !! length cells) as [[lt vt]|] eqn:E.
  - simpl. intros [= <-].
    by pose proof (rep_loc_inj _ _ 0%nat (S (length cells)) _ _ _ Hr eq_refl E).
  - apply lookup_ge_None in E. simpl in E. lia.
Qed.

Lemma pop_front_rep s l0 v0 cells :
  rep s ((l0, v0) :: cells) →
  ∃ s', pop_front s = (Ret v0, s') ∧ rep s' cells ∧ _size s' = _size s - 1.
Proof.
  intros Hr.
  pose proof (rep_nodes _ _ Hr 0%nat _ _ eq_refl) as Hn0.
  destruct cells as [|[l1 v1] cells].
  - destruct s as [σ h t n]. destruct Hr as [Hnd Hh Ht Hn Hnodes].
    simpl in *. subst. munfold. rewrite Hn0. simpl.
    rewrite bool_decide_eq_true_2 by done. simpl.
    eexists. split; [reflexivity|]. split; [|done]. by apply rep_nil.
  - pose proof (rep_head_ne_tail _ _ _ _ _ Hr) as Hht.
    pose proof (rep_nodes _ _ Hr 1%nat _ _ eq_refl) as Hn1.
    assert (Hinj : ∀ i l w, ((l0, v0) :: (l1, v1) :: cells) !! i = Some (l, w) →
                            l = l1 → i = 1%nat).
    { intros i l w Hi ->. by eapply rep_loc_inj. }
    destruct s as [σ h t n]. destruct Hr as [Hnd Hh Ht Hn Hnodes].
    simpl in Hh, Hn, Hn0, Hn1, Hht. subst h n. munfold. rewrite Hn0. simpl.
    rewrite bool_decide_eq_false_2 by done. simpl.
    rewrite Hn0. simpl. rewrite Hn1. simpl.
    eexists. split; [reflexivity|]. split; [|done].
    constructor; simpl.
    + by apply NoDup_cons in Hnd as [_ ?].
    + done.
    + done.
    + lia.
    + intros [|i] l w Hi; simplify_eq/=.
      * rewrite list_lookup_insert_eq by (by apply lookup_lt_Some in Hn1). done.
      * assert (l ≠ l1) by (intros E; by specialize (Hinj (S (S i)) _ _ Hi E)).
        rewrite list_lookup_insert_ne by done.
        by rewrite (Hnodes (S (S i)) _ _ Hi).
Qed.

Lemma rep_snoc_head_ne_tail s cells c lt vt :
  rep s ((cells ++ [c]) ++ [(lt, vt)]) → _head s ≠ _tail s.
Proof.
  intros Hr. destruct c. destruct cells as [|[l0 v0] [|c' cells]];
    simpl in Hr; by eapply rep_head_ne_tail.
Qed.

Lemma pop_back_rep s lt vt cells :
  rep s (cells ++ [(lt, vt)]) →
  ∃ s', pop_back s = (Ret vt, s') ∧ rep s' cells ∧ _size s' = _size s - 1.
Proof.
  intros Hr.
  assert (Hlast : (cells ++ [(lt, vt)]) !! length cells = Some (lt, vt)).
  { by rewrite lookup_app_r, Nat.sub_diag by lia. }
  pose proof (rep_nodes _ _ Hr _ _ _ Hlast) as Hn0.
  destruct (cells_snoc cells) as [->|(cells' & lp & vp & ->)].
  - destruct s as [σ h t n]. destruct Hr as [Hnd Hh Ht Hn Hnodes].
    simpl in *. subst. munfold. rewrite Hn0. simpl.
    rewrite bool_decide_eq_true_2 by done. simpl.
    eexists. split; [reflexivity|]. split; [|done]. by apply rep_nil.
  - pose proof (rep_snoc_head_ne_tail _ _ _ _ _ Hr) as Hht.
    assert (Hprev : ((cells' ++ [(lp, vp)]) ++ [(lt, vt)]) !! length cells' = Some (lp, vp)).
    { rewrite lookup_app_l by len. by rewrite lookup_app_r, Nat.sub_diag by lia. }
    pose proof (rep_nodes _ _ Hr _ _ _ Hprev) as Hn1.
    assert (Hinj : ∀ i l w, ((cells' ++ [(lp, vp)]) ++ [(lt, vt)]) !! i = Some (l, w) →
                            l = lp → i = length cells').
    { intros i l w Hi ->. by eapply rep_loc_inj. }
    destruct s as [σ h t n]. destruct Hr as [Hnd Hh Ht Hn Hnodes].
    rewrite last_snoc in Ht.
    simpl in Hh, Ht, Hn, Hn0, Hn1, Hht. cbn [nodes] in Hnodes. subst t. munfold.
    rewrite (bool_decide_eq_false_2 (n = 0)) by len. simpl.
    rewrite Hn0. simpl.
    rewrite bool_decide_eq_false_2 by done. simpl.
    rewrite Hn0. simpl.
    replace (length (cells' ++ [(lp, vp)])) with (S (length cells')) by len.
    rewrite Hprev. simpl. rewrite Hn1. simpl.
    eexists. split; [reflexivity|]. split; [|done].
    constructor; simpl.
    + rewrite fmap_app in Hnd. by apply NoDup_app in Hnd as [? _].
    + rewrite Hh. rewrite <- app_assoc. by destruct cells'.
    + by rewrite last_snoc.
    + len.
    + intros i l w Hi.
      assert (Hi' : ((cells' ++ [(lp, vp)]) ++ [(lt, vt)]) !! i = Some (l, w)).
      { rewrite lookup_app_l; [done|]. by apply lookup_lt_Some in Hi. }
      destruct (decide (i = length cells')) as [->|Hne].
      * rewrite Hprev in Hi'. simplify_eq.
        rewrite list_lookup_insert_eq by (by apply lookup_lt_Some in Hn1).
        unfold node_at. rewrite (lookup_ge_None_2 _ (S _)) by len.
        do 2 f_equal. destruct (length cells') as [|j] eqn:Ej; [done|].
        by rewrite (lookup_app_l (cells' ++ _)) by len.
      * assert (l ≠ lp) by (intros E; by specialize (Hinj _ _ _ Hi' E)).
        rewrite list_lookup_insert_ne by done.
        rewrite (Hnodes _ _ _ Hi').
        rewrite (node_at_app_l (cells' ++ [(lp, vp)])); [done|].
        apply lookup_lt_Some in Hi. len.
Qed.

Lemma front_rep s l0 v0 cells :
  rep s ((l0, v0) :: cells) → front s = (Ret v0, s).
Proof.
  intros Hr. pose proof (rep_nodes _ _ Hr 0%nat _ _ eq_refl) as Hn0.
  destruct s as [σ h t n]. destruct Hr as [Hnd Hh Ht Hn Hnodes].
  simpl in *. subst. munfold. by rewrite Hn0.
Qed.

Lemma back_rep s lt vt cells :
  rep s (cells ++ [(lt, vt)]) → back s = (Ret vt, s).
Proof.
  intros Hr.
  assert (Hlast : (cells ++ [(lt, vt)]) !! length cells = Some (lt, vt)).
  { by rewrite lookup_app_r, Nat.sub_diag by lia. }
  pose proof (rep_nodes _ _ Hr _ _ _ Hlast) as Hn0.
  destruct s as [σ h t n]. destruct Hr as [Hnd Hh Ht Hn Hnodes].
  rewrite last_snoc in Ht. simpl in Hh, Ht, Hn, Hn0. subst t. munfold.
  rewrite (bool_decide_eq_false_2 (n = 0)) by len. simpl.
  by rewrite Hn0.
Qed.

(** On an empty list the four accessors raise before they touch anything. *)
Lemma empty_raises s :
  _size s = 0 →
  pop_front s = (Raise (IndexError "List is empty"), s) ∧
  pop_back s = (Raise (IndexError "List is empty"), s) ∧
  front s = (Raise (IndexError "List is empty"), s) ∧
  back s = (Raise (IndexError "List is empty"), s).
Proof.
  intros Hs. destruct s as [σ h t n]. simpl in Hs. subst n. done.
Qed.

Lemma clear_rep s : clear s = (Ret tt, (clear s).2) ∧ rep (clear s).2 [].
Proof. split; [done|]. by apply rep_nil. Qed.

Lemma push_back_all_rep elements s cells :
  rep s cells →
  ∃ s' cells', push_back_all elements s = (Ret tt, s') ∧
               rep s' (cells ++ cells') ∧ cells'.*2 = elements.
Proof.
  revert s cells. induction elements as [|e elements IH]; intros s cells Hr.
  - exists s, []. by rewrite app_nil_r.
  - destruct (push_back_rep s cells e Hr) as (s1 & Hrun & Hr1 & _).
    destruct (IH _ _ Hr1) as (s2 & cells2 & Hrun2 & Hr2 & Hvs).
    exists s2, ((length (nodes s), e) :: cells2). split; [|split].
    + simpl. unfold bind. by rewrite Hrun.
    + by rewrite <- app_assoc in Hr2.
    + by rewrite fmap_cons, Hvs.
Qed.

Lemma List_init_rep initial_elements :
  ∃ cells, List_init initial_elements = (Ret tt, (List_init initial_elements).2) ∧
           rep (List_init initial_elements).2 cells ∧
           cells.*2 = default [] initial_elements.
Proof.
  assert (Hnil : rep (mkList [] None None 0) ([] : list (loc * T))) by by apply rep_nil.
  destruct initial_elements as [[|e elements]|].
  - by exists [].
  - destruct (push_back_all_rep (e :: elements) _ _ Hnil) as (s' & cells' & Hrun & Hr & Hvs).
    exists cells'.
    change (List_init (Some (e :: elements)))
      with (push_back_all (e :: elements) (mkList [] None None 0)).
    by rewrite Hrun.
  - by exists [].
Qed.

(** Traversal. *)
Lemma iter_collect_rep s cells fuel i :
  rep s cells → (length cells ≤ i + fuel)%nat →
  iter_collect fuel (fst <$> cells !! i) s = Some (Ret (drop i cells).*2).
Proof.
  intros Hr. revert i. induction fuel as [|fuel IH]; intros i Hlen.
  - rewrite lookup_ge_None_2, drop_ge by lia. done.
  - destruct (cells !! i) as [[l v]|] eqn:Hi.
    + pose proof (rep_nodes _ _ Hr _ _ _ Hi) as Hn.
      rewrite (drop_S _ _ _ Hi). simpl.
      unfold iter_next, get_data, get_next, deref, bind, ret.
      rewrite Hn. simpl. rewrite Hn. simpl.
      pose proof (IH (S i) ltac:(lia)) as IH'. simpl in IH'. by rewrite IH'.
    + apply lookup_ge_None in Hi. by rewrite drop_ge by lia.
Qed.

Lemma to_list_rep s cells fuel :
  rep s cells → (length cells ≤ fuel)%nat →
  to_list fuel s = Some (Ret cells.*2).
Proof.
  intros Hr Hlen. unfold to_list, iter_start.
  rewrite (rep_head _ _ Hr), head_lookup.
  by rewrite (iter_collect_rep s cells fuel 0%nat).
Qed.

Lemma nodes_from_rep s cells fuel i :
  rep s cells → (length cells ≤ i + fuel)%nat →
  nodes_from fuel (nodes s) (fst <$> cells !! i) = Some (drop i cells).*1.
Proof.
  intros Hr. revert i. induction fuel as [|fuel IH]; intros i Hlen.
  - rewrite lookup_ge_None_2, drop_ge by lia. done.
  - destruct (cells !! i) as [[l v]|] eqn:Hi.
    + pose proof (rep_nodes _ _ Hr _ _ _ Hi) as Hn.
      rewrite (drop_S _ _ _ Hi). simpl. rewrite Hn. simpl.
      by rewrite (IH (S i)) by lia.
    + apply lookup_ge_None in Hi. by rewrite drop_ge by lia.
Qed.

(** The representation gives the invariant of the specification. *)
Lemma rep_rep_invariant s cells : rep s cells → rep_invariant s.
Proof.
  intros Hr. constructor.
  - intros Hne. rewrite (rep_size _ _ Hr) in Hne.
    rewrite (rep_head _ _ Hr), (rep_tail _ _ Hr), head_lookup, last_lookup.
    split.
    + destruct (cells !! 0%nat) as [[l v]|] eqn:E.
      * exists l, (node_at cells 0 v). split; [done|]. split; [|done].
        by apply (rep_nodes _ _ Hr).
      * apply lookup_ge_None in E. lia.
    + destruct (cells !! pred (length cells)) as [[l v]|] eqn:E.
      * exists l, (node_at cells (pred (length cells)) v). split; [done|].
        split; [by apply (rep_nodes _ _ Hr)|].
        apply node_at_last. apply lookup_lt_Some in E. lia.
      * apply lookup_ge_None in E. lia.
  - exists cells.*1. split; [|split].
    + rewrite (rep_head _ _ Hr), head_lookup, (rep_size _ _ Hr), Nat2Z.id.
      by rewrite (nodes_from_rep s cells (length cells) 0%nat) by (done || lia).
    + by rewrite length_fmap, (rep_size _ _ Hr).
    + intros a b na Ha Hna Hnx.
      apply list_elem_of_lookup in Ha as [i Hi].
      rewrite list_lookup_fmap in Hi.
      destruct (cells !! i) as [[l v]|] eqn:E; simplify_eq/=.
      rewrite (rep_nodes _ _ Hr _ _ _ E) in Hna. simplify_eq/=.
      destruct (cells !! S i) as [[l' v']|] eqn:E'; simplify_eq/=.
      exists (node_at cells (S i) v'). split; [by apply (rep_nodes _ _ Hr)|].
      simpl. by rewrite E.
  - rewrite (rep_size _ _ Hr), (rep_head _ _ Hr), (rep_tail _ _ Hr).
    destruct cells as [|c cells]; [done|]. split; [simpl; lia|].
    by intros [? _].
  - rewrite (rep_size _ _ Hr), (rep_head _ _ Hr), (rep_tail _ _ Hr).
    destruct cells as [|[l0 v0] [|c cells]].
    + split; [done|]. by intros (? & ? & _).
    + split; [|done]. intros _. by exists l0.
    + split; [simpl; lia|]. intros (l & Hh & Ht).
      exfalso. eapply (rep_head_ne_tail _ _ _ _ _ Hr).
      rewrite (rep_head _ _ Hr), (rep_tail _ _ Hr). by rewrite Hh, Ht.
Qed.

Lemma snoc_values cells l v : (cells ++ [(l, v)]).*2 = cells.*2 ++ [v].
Proof. by rewrite fmap_app. Qed.

(** One call, against one step of the reference deque. *)
Lemma exec_refines c s cells :
  rep s cells →
  ∃ cells', observe (exec c s).1 = (ref_step c cells.*2).1 ∧
            rep (exec c s).2 cells' ∧
            cells'.*2 = (ref_step c cells.*2).2.
Proof.
  intros Hr. destruct c as [v|v| | | | | | |]; unfold exec, lift, bind.
  - destruct (push_front_rep s cells v Hr) as (s' & -> & Hr' & _).
    by eexists.
  - destruct (push_back_rep s cells v Hr) as (s' & -> & Hr' & _).
    eexists. split; [done|]. split; [done|]. by rewrite fmap_app.
  - destruct cells as [|[l0 v0] cells].
    + destruct (empty_raises s) as (-> & _); [by rewrite (rep_size _ _ Hr)|].
      by exists [].
    + destruct (pop_front_rep s l0 v0 cells Hr) as (s' & -> & Hr' & _).
      by exists cells.
  - destruct (cells_snoc cells) as [->|(cells' & lt & vt & ->)].
    + destruct (empty_raises s) as (_ & -> & _); [by rewrite (rep_size _ _ Hr)|].
      by exists [].
    + destruct (pop_back_rep s lt vt cells' Hr) as (s' & -> & Hr' & _).
      exists cells'. rewrite snoc_values. simpl. rewrite last_snoc. simpl.
      by rewrite removelast_last.
  - destruct cells as [|[l0 v0] cells].
    + destruct (empty_raises s) as (_ & _ & -> & _); [by rewrite (rep_size _ _ Hr)|].
      by exists [].
    + rewrite (front_rep s l0 v0 cells Hr). by eexists.
  - destruct (cells_snoc cells) as [->|(cells' & lt & vt & ->)].
    + destruct (empty_raises s) as (_ & _ & _ & ->); [by rewrite (rep_size _ _ Hr)|].
      by exists [].
    + rewrite (back_rep s lt vt cells' Hr).
      eexists. rewrite snoc_values. simpl. rewrite last_snoc. simpl.
      by rewrite snoc_values.
  - exists cells. simpl. by rewrite (rep_size _ _ Hr), length_fmap.
  - exists cells. simpl. rewrite (rep_size _ _ Hr), length_fmap.
    split; [|done]. do 2 f_equal. apply bool_decide_ext. lia.
  - exists []. split; [done|]. split; [|done]. by apply rep_nil.
Qed.

Lemma run_refines cs s cells :
  rep s cells →
  ∃ cells', observe <$> (run cs s).1 = (ref_run cs cells.*2).1 ∧
            rep (run cs s).2 cells' ∧
            cells'.*2 = (ref_run cs cells.*2).2.
Proof.
  revert s cells. induction cs as [|c cs IH]; intros s cells Hr.
  - by exists cells.
  - destruct (exec_refines c s cells Hr) as (cells1 & Ho & Hr1 & Hv1).
    destruct (IH _ _ Hr1) as (cells2 & Hos & Hr2 & Hv2).
    exists cells2. simpl.
    destruct (exec c s) as [o s1]. simpl in Ho, Hr1, Hos, Hr2.
    destruct (run cs s1) as [os s2] eqn:Erun.
    destruct (ref_step c cells.*2) as [o' q1]. simpl in Ho, Hv1. subst q1.
    destruct (ref_run cs cells1.*2) as [os' q2] eqn:Eref.
    simpl in *. by subst.
Qed.

Lemma reachable_rep s : reachable s → ∃ cells, rep s cells.
Proof.
  induction 1 as [initial_elements|c s _ [cells Hr]].
  - destruct (List_init_rep initial_elements) as (cells & _ & Hr & _). eauto.
  - destruct (exec_refines c s cells Hr) as (cells' & _ & Hr' & _). eauto.
Qed.

Lemma run_reachable cs s : reachable s → reachable (run cs s).2.
Proof.
  revert s. induction cs as [|c cs IH]; intros s Hs; [done|].
  simpl. pose proof (IH _ (reachable_call c s Hs)) as Hs'.
  destruct (exec c s) as [o s1]. simpl in Hs'. by destruct (run cs s1).
Qed.
Lemma iter_collect_short s cells fuel i :
  rep s cells → (i + fuel < length cells)%nat →
  iter_collect fuel (fst <$> cells !! i) s = None.
Proof.
  intros Hr. revert i. induction fuel as [|fuel IH]; intros i Hlen.
  - destruct (lookup_lt_is_Some_2 cells i) as [[l v] Hi]; [lia|].
    pose proof (rep_nodes _ _ Hr _ _ _ Hi) as Hn. rewrite Hi. simpl.
    unfold iter_next, get_data, get_next, deref, bind, ret.
    rewrite Hn. simpl. by rewrite Hn.
  - destruct (lookup_lt_is_Some_2 cells i) as [[l v] Hi]; [lia|].
    pose proof (rep_nodes _ _ Hr _ _ _ Hi) as Hn. rewrite Hi. simpl.
    unfold iter_next, get_data, get_next, deref, bind, ret.
    rewrite Hn. simpl. rewrite Hn. simpl.
    pose proof (IH (S i) ltac:(lia)) as IH'. simpl in IH'. by rewrite IH'.
Qed.

Lemma to_list_inv s cells fuel vs :
  rep s cells → to_list fuel s = Some (Ret vs) → vs = cells.*2.
Proof.
  intros Hr Hl. destruct (decide (length cells ≤ fuel)%nat) as [Hle|Hgt].
  - rewrite (to_list_rep s cells fuel Hr Hle) in Hl. congruence.
  - unfold to_list, iter_start in Hl.
    rewrite (rep_head _ _ Hr), head_lookup in Hl.
    rewrite (iter_collect_short s cells fuel 0%nat) in Hl by (done || lia).
    done.
Qed.

Lemma run_init_refines (initial_elements : option (list T)) (cs : list (call T)) :
  ∃ cells,
    observe <$> (run cs (List_init initial_elements).2).1 =
      (ref_run cs (default [] initial_elements)).1 ∧
    rep (run cs (List_init initial_elements).2).2 cells ∧
    cells.*2 = (ref_run cs (default [] initial_elements)).2.
Proof.
  destruct (List_init_rep initial_elements) as (cells0 & _ & Hr0 & Hv0).
  destruct (run_refines cs _ _ Hr0) as (cells & Ho & Hr & Hv).
  rewrite Hv0 in Ho, Hv. eauto.
Qed.
End ListProofs.

End ListFacts.

(** ** The heap functions *)

Module HeapFacts.
Import heapq HeapOrder.

Lemma siftdown_loop_unfold newitem startpos pos :
  siftdown_loop newitem startpos pos =
  if decide (startpos < pos)%nat then
    parent <- getitem (Nat.shiftr (pos - 1) 1) ;;
    b <- lt newitem parent ;;
    if b : bool then
      setitem pos parent ;;;
      siftdown_loop newitem startpos (Nat.shiftr (pos - 1) 1)
    else ret pos
  else ret pos.
Proof.
  rewrite siftdown_loop_equation_1.
  destruct (decide (startpos < pos)%nat); reflexivity.
Qed.

Lemma siftup_loop_unfold endpos pos :
  siftup_loop endpos pos =
  if decide (2 * pos + 1 < endpos)%nat then
    right_smaller <-
      (if decide (2 * pos + 1 + 1 < endpos)%nat then
         l <- getitem (2 * pos + 1) ;;
         r <- getitem (2 * pos + 1 + 1) ;;
         b <- lt l r ;;
         ret (negb b)
       else ret false) ;;
    x <- getitem (if right_smaller : bool then 2 * pos + 1 + 1 else 2 * pos + 1) ;;
    setitem pos x ;;;
    siftup_loop endpos (if right_smaller then 2 * pos + 1 + 1 else 2 * pos + 1)
  else ret pos.
Proof.
  rewrite siftup_loop_equation_1.
  destruct (decide (2 * pos + 1 < endpos)%nat); reflexivity.
Qed.


Lemma parent_spec i : (0 < i)%nat → (2 * parent i + 1 = i ∨ 2 * parent i + 2 = i)%nat.
Proof.
  intros Hi. unfold parent. rewrite Nat.shiftr_div_pow2.
  change (2 ^ 1)%nat with 2%nat.
  pose proof (Nat.div_mod_eq (i - 1) 2) as Hdm.
  pose proof (Nat.mod_upper_bound (i - 1) 2). lia.
Qed.

Lemma parent_left pos : parent (2 * pos + 1) = pos.
Proof. pose proof (parent_spec (2 * pos + 1)). lia. Qed.

Lemma parent_right pos : parent (2 * pos + 1 + 1) = pos.
Proof. pose proof (parent_spec (2 * pos + 1 + 1)). lia. Qed.

Ltac lk :=
  repeat first
    [ rewrite list_lookup_insert_eq by (rewrite ?length_insert; lia)
    | rewrite list_lookup_insert_ne by lia ].
Ltac lk_in H :=
  repeat first
    [ rewrite list_lookup_insert_eq in H by (rewrite ?length_insert; lia)
    | rewrite list_lookup_insert_ne in H by lia ].

Section Class.
Context (P : pyval → Prop).
Hypothesis P_total : ∀ x y, P x → P y → ∃ b, py_lt x y = Ret b.

Lemma heap_ok_at_root heap :
  heap_except 0 heap → children_ok 0 heap → heap_ok heap.
Proof.
  intros [Ho _] Hc i x p Hi Hx Hp.
  destruct (decide (parent i = 0%nat)) as [E|E].
  - rewrite E in Hp. by eapply Hc.
  - eapply Ho; eauto. lia.
Qed.

Lemma heap_ok_settled pos heap x p :
  (0 < pos)%nat → heap !! pos = Some x → heap !! parent pos = Some p →
  le p x → heap_except pos heap → children_ok pos heap → heap_ok heap.
Proof.
  intros Hpos Hx Hp Hle [Ho _] Hc i y q Hi Hy Hq.
  destruct (decide (i = pos)) as [->|Hne].
  { assert (y = x) by congruence. assert (q = p) by congruence. by subst. }
  destruct (decide (parent i = pos)) as [E|E].
  - rewrite E in Hq. by eapply Hc.
  - by eapply Ho.
Qed.

(** One step of [_siftdown]: the hole moves from [pos] to its parent. *)
Lemma heap_except_up pos heap x p :
  order_class P → Forall P heap →
  (0 < pos)%nat → heap !! pos = Some x → heap !! parent pos = Some p →
  py_lt x p = Ret true →
  heap_except pos heap → children_ok pos heap →
  heap_except (parent pos) (<[parent pos := x]> (<[pos := p]> heap)) ∧
  children_ok (parent pos) (<[parent pos := x]> (<[pos := p]> heap)).
Proof.
  intros OC HP Hpos Hx Hp Hlt [Ho Hg] Hc.
  pose proof (parent_spec pos Hpos) as Hpp.
  assert (Hlen : (pos < length heap)%nat) by by apply lookup_lt_Some in Hx.
  assert (HPl : ∀ i y, heap !! i = Some y → P y).
  { intros i y Hy. by eapply (Forall_lookup_1 P heap). }
  assert (Hxp : le x p) by (eapply class_asym; eauto).
  split; [constructor|].
  - intros i y q Hi Hne Hpne Hy Hq.
    destruct (decide (i = pos)) as [->|Hipos]; [congruence|].
    lk_in Hy.
    destruct (decide (parent i = pos)) as [E|E].
    + rewrite E in Hq. lk_in Hq. assert (q = p) as -> by congruence.
      eapply Hg; eauto.
    + lk_in Hq. eapply Ho; eauto.
  - intros c y g Hpar Hc0 Hcp Hy Hgq.
    pose proof (parent_spec (parent pos) Hpar).
    lk_in Hgq.
    destruct (decide (c = pos)) as [->|Hcpos].
    + lk_in Hy. assert (y = p) as -> by congruence.
      eapply (Ho (parent pos)); eauto; lia.
    + pose proof (parent_spec c Hc0).
      lk_in Hy.
      assert (le p y) by (eapply Ho; eauto; [lia|by rewrite Hcp]).
      assert (le g p) by (eapply (Ho (parent pos)); eauto; lia).
      eapply (class_trans P OC g p y); eauto.
  - intros c y z Hc0 Hcp Hy Hz.
    lk_in Hz. assert (z = x) as -> by congruence.
    destruct (decide (c = pos)) as [->|Hcpos].
    + lk_in Hy. by assert (y = p) as -> by congruence.
    + pose proof (parent_spec c Hc0).
      lk_in Hy.
      assert (le p y) by (eapply Ho; eauto; [lia|by rewrite Hcp]).
      eapply (class_trans P OC x p y); eauto.
Qed.

(** The loop of [_siftdown] from [pos] to the root. *)
Lemma siftdown_loop_spec pos : ∀ heap x,
  (pos < length heap)%nat → Forall P heap → P x →
  ∃ p heap',
    siftdown_loop x 0 pos heap = (Ret p, heap') ∧
    (p < length heap')%nat ∧ length heap' = length heap ∧
    <[p := x]> heap' ≡ₚ <[pos := x]> heap ∧
    (order_class P →
     heap_except pos (<[pos := x]> heap) →
     children_ok pos (<[pos := x]> heap) →
     heap_ok (<[p := x]> heap')).
Proof.
  induction pos as [pos IH] using lt_wf_ind. intros heap x Hlen HP Hx.
  rewrite siftdown_loop_unfold.
  destruct (decide (0 < pos)%nat) as [Hpos|Hpos].
  - pose proof (parent_spec pos Hpos) as Hpp. fold (parent pos).
    destruct (lookup_lt_is_Some_2 heap (parent pos)) as [p Hp]; [lia|].
    assert (P p) as HPp by by eapply (Forall_lookup_1 P heap).
    destruct (P_total x p Hx HPp) as [b Hb].
    unfold bind at 1, getitem. rewrite Hp.
    unfold bind at 1, lt. rewrite Hb.
    destruct b.
    + unfold bind at 1, setitem. rewrite decide_True by done.
      destruct (IH (parent pos) ltac:(lia) (<[pos := p]> heap) x)
        as (q & heap' & Hrun & Hq & Hlen' & Hperm & Hord).
      { rewrite length_insert. lia. }
      { by apply Forall_insert. }
      { done. }
      exists q, heap'. split; [done|]. split; [done|].
      split; [by rewrite Hlen', length_insert|].
      split.
      * rewrite Hperm.
        rewrite <- (list_insert_insert_eq heap pos p x) at 1.
        rewrite <- (list_insert_insert_ne (<[pos:=x]> heap)) by lia.
        apply Permutation_insert_swap; by lk.
      * intros OC He Hc.
        destruct (heap_except_up pos (<[pos:=x]> heap) x p) as [He' Hc'];
          [done | by apply Forall_insert | done | by lk | by lk
          | done | done | done |].
        rewrite list_insert_insert_eq in He', Hc'. by apply Hord.
    + exists pos, heap. split; [done|]. split; [done|]. split; [done|].
      split; [done|]. intros OC He Hc.
      eapply (heap_ok_settled pos _ x p); eauto; by lk.
  - assert (pos = 0%nat) as -> by lia.
    exists 0%nat, heap. split; [done|]. split; [done|]. split; [done|].
    split; [done|]. intros _ He Hc. by apply heap_ok_at_root.
Qed.

Lemma _siftdown_spec pos heap x :
  heap !! pos = Some x → Forall P heap →
  ∃ heap',
    _siftdown 0 pos heap = (Ret tt, heap') ∧
    heap' ≡ₚ heap ∧
    (order_class P → heap_except pos heap → children_ok pos heap →
     heap_ok heap').
Proof.
  intros Hx HP.
  assert (P x) by by eapply (Forall_lookup_1 P heap).
  assert (pos < length heap)%nat as Hlen by by apply lookup_lt_Some in Hx.
  destruct (siftdown_loop_spec pos heap x Hlen HP)
    as (p & heap' & Hrun & Hp & Hlen' & Hperm & Hord); [done|].
  rewrite (list_insert_id heap pos x Hx) in Hperm, Hord.
  exists (<[p := x]> heap'). split; [|done].
  unfold _siftdown. unfold bind at 1, getitem. rewrite Hx.
  unfold bind at 1. rewrite Hrun.
  unfold setitem. by rewrite decide_True.
Qed.

Lemma heap_ok_snoc heap x :
  heap_ok heap →
  heap_except (length heap) (heap ++ [x]) ∧
  children_ok (length heap) (heap ++ [x]).
Proof.
  intros Hok. split; [constructor|].
  - intros i y p Hi Hne Hpne Hy Hp.
    pose proof (parent_spec i Hi).
    assert (i < length heap)%nat.
    { apply lookup_lt_Some in Hy. rewrite length_app in Hy. simpl in Hy. lia. }
    rewrite lookup_app_l in Hy, Hp by lia. by eapply Hok.
  - intros c y g Hpos Hc Hcp Hy Hg.
    pose proof (parent_spec c Hc).
    apply lookup_lt_Some in Hy. rewrite length_app in Hy. simpl in Hy. lia.
  - intros c y z Hc Hcp Hy Hz.
    pose proof (parent_spec c Hc).
    apply lookup_lt_Some in Hy. rewrite length_app in Hy. simpl in Hy. lia.
Qed.

Lemma heappush_spec heap item :
  Forall P heap → P item →
  ∃ heap',
    heappush item heap = (Ret tt, heap') ∧
    heap' ≡ₚ item :: heap ∧
    (order_class P → heap_ok heap → heap_ok heap').
Proof.
  intros HP Hitem.
  destruct (_siftdown_spec (length heap) (heap ++ [item]) item)
    as (heap' & Hrun & Hperm & Hord).
  { by rewrite lookup_app_r, Nat.sub_diag by lia. }
  { apply Forall_app. split; [done|]. by apply Forall_singleton. }
  exists heap'. split; [|split].
  - unfold heappush, append, len, bind, modify, gets.
    rewrite length_app. simpl.
    by replace (length heap + 1 - 1)%nat with (length heap) by lia.
  - rewrite Hperm. by rewrite Permutation_app_comm.
  - intros OC Hok. destruct (heap_ok_snoc heap item Hok). by apply Hord.
Qed.

Lemma class_refl x : order_class P → P x → le x x.
Proof.
  intros OC Hx. destruct (class_total P OC x x Hx Hx) as [[] Hb]; [|done].
  by apply (class_asym P OC).
Qed.

(** One step of [_siftup]: the hole moves from [pos] to the child [c]
    that holds the smaller item [y]. *)
Lemma heap_except_down pos c heap x y :
  (0 < c)%nat → parent c = pos →
  heap !! pos = Some x → heap !! c = Some y →
  (∀ s z, (0 < s)%nat → parent s = pos → heap !! s = Some z → le y z) →
  heap_except pos heap →
  heap_except c (<[c := x]> (<[pos := y]> heap)).
Proof.
  intros Hc Hcp Hx Hy Hmin [Ho Hg].
  pose proof (parent_spec c Hc) as Hcs.
  assert (pos < length heap)%nat by by apply lookup_lt_Some in Hx.
  assert (c < length heap)%nat by by apply lookup_lt_Some in Hy.
  constructor.
  - intros i a b Hi Hne Hpne Ha Hb.
    pose proof (parent_spec i Hi).
    destruct (decide (i = pos)) as [->|Hipos].
    + lk_in Ha. lk_in Hb. assert (a = y) as -> by congruence.
      by eapply (Hg c).
    + lk_in Ha. destruct (decide (parent i = pos)) as [E|E].
      * rewrite E in Hb. lk_in Hb. assert (b = y) as -> by congruence.
        by eapply Hmin.
      * lk_in Hb. by eapply Ho.
  - intros d a g _ Hd Hdp Ha Hgq.
    pose proof (parent_spec d Hd).
    rewrite Hcp in Hgq. lk_in Ha. lk_in Hgq.
    assert (g = y) as -> by congruence.
    eapply (Ho d); eauto; [lia|lia|by rewrite Hdp].
Qed.

(** The loop of [_siftup] from [pos] down to a leaf. *)
Lemma siftup_loop_spec n : ∀ pos heap x,
  n = (length heap - pos)%nat →
  (pos < length heap)%nat → Forall P heap → P x →
  ∃ leaf heap',
    siftup_loop (length heap) pos heap = (Ret leaf, heap') ∧
    (leaf < length heap')%nat ∧ length heap' = length heap ∧
    ¬ (2 * leaf + 1 < length heap)%nat ∧
    Forall P heap' ∧
    <[leaf := x]> heap' ≡ₚ <[pos := x]> heap ∧
    (order_class P →
     heap_except pos (<[pos := x]> heap) →
     heap_except leaf (<[leaf := x]> heap')).
Proof.
  induction n as [n IH] using lt_wf_ind. intros pos heap x Hn Hlen HP Hx.
  rewrite siftup_loop_unfold.
  destruct (decide (2 * pos + 1 < length heap)%nat) as [Hl|Hl].
  2:{ exists pos, heap. split; [done|]. do 4 (split; [done|]). split; [done|].
      by intros _ He. }
  destruct (lookup_lt_is_Some_2 heap (2 * pos + 1)) as [l Hll]; [lia|].
  assert (P l) as HPl by by eapply (Forall_lookup_1 P heap).
  (* which child moves up *)
  assert (∃ (rs : bool) y,
    (if decide (2 * pos + 1 + 1 < length heap)%nat then
       l <- getitem (2 * pos + 1) ;;
       r <- getitem (2 * pos + 1 + 1) ;;
       b <- lt l r ;;
       ret (negb b)
     else ret false) heap = (Ret rs, heap) ∧
    heap !! (if rs then 2 * pos + 1 + 1 else 2 * pos + 1)%nat = Some y ∧
    (order_class P → ∀ s z, (0 < s)%nat → parent s = pos →
                            heap !! s = Some z → le y z))
    as (rs & y & Hchoose & Hy & Hmin).
  { destruct (decide (2 * pos + 1 + 1 < length heap)%nat) as [Hr|Hr].
    - destruct (lookup_lt_is_Some_2 heap (2 * pos + 1 + 1)) as [r Hrr]; [lia|].
      assert (P r) as HPr by by eapply (Forall_lookup_1 P heap).
      destruct (P_total l r HPl HPr) as [b Hb].
      exists (negb b), (if negb b then r else l). split; [|split].
      + unfold bind, getitem, lt, ret. by rewrite Hll, Hrr, Hb.
      + by destruct b.
      + intros OC s z Hs Hsp Hz. pose proof (parent_spec s Hs).
        assert (s = 2 * pos + 1 ∨ s = 2 * pos + 1 + 1)%nat as [->| ->] by lia.
        * assert (z = l) as -> by congruence.
          destruct b; simpl; [by apply class_refl|done].
        * assert (z = r) as -> by congruence.
          destruct b; simpl; [by apply (class_asym P OC)|by apply class_refl].
    - exists false, l. split; [done|]. split; [done|].
      intros OC s z Hs Hsp Hz. pose proof (parent_spec s Hs).
      apply lookup_lt_Some in Hz as Hs'.
      assert (s = 2 * pos + 1)%nat as -> by lia.
      assert (z = l) as -> by congruence. by apply class_refl. }
  set (c := (if rs then 2 * pos + 1 + 1 else 2 * pos + 1)%nat) in *.
  assert (0 < c ∧ parent c = pos ∧ pos < c ∧ c < length heap)%nat
    as (Hc0 & Hcp & Hpc & Hclen).
  { apply lookup_lt_Some in Hy. subst c.
    destruct rs; [rewrite parent_right|rewrite parent_left]; lia. }
  assert (P y) as HPy by by eapply (Forall_lookup_1 P heap).
  unfold bind at 1. rewrite Hchoose.
  unfold bind at 1, getitem. fold c. rewrite Hy.
  unfold bind at 1, setitem. rewrite decide_True by done.
  destruct (IH (length heap - c)%nat ltac:(lia) c (<[pos := y]> heap) x)
    as (leaf & heap' & Hrun & Hleaf & Hlen' & Hisleaf & HP' & Hperm & Hord).
  { by rewrite length_insert. }
  { by rewrite length_insert. }
  { by apply Forall_insert. }
  { done. }
  rewrite length_insert in Hrun, Hlen', Hisleaf.
  exists leaf, heap'. split; [done|]. do 4 (split; [done|]). split.
  - rewrite Hperm.
    rewrite <- (list_insert_insert_eq heap pos y x) at 1.
    apply Permutation_insert_swap; by lk.
  - intros OC He. apply Hord; [done|].
    rewrite <- (list_insert_insert_eq heap pos y x).
    apply heap_except_down; try done; lk; try done.
    intros s z Hs Hsp Hz. pose proof (parent_spec s Hs).
    lk_in Hz. by apply (Hmin OC s).
Qed.

Lemma _siftup_spec heap x :
  heap !! 0%nat = Some x → Forall P heap →
  ∃ heap',
    _siftup 0 heap = (Ret tt, heap') ∧
    heap' ≡ₚ heap ∧
    (order_class P → heap_except 0 heap → heap_ok heap').
Proof.
  intros Hx HP.
  assert (P x) as HPx by by eapply (Forall_lookup_1 P heap).
  assert (0 < length heap)%nat as Hlen by by apply lookup_lt_Some in Hx.
  destruct (siftup_loop_spec (length heap - 0) 0 heap x eq_refl Hlen HP HPx)
    as (leaf & heap1 & Hrun & Hleaf & Hlen1 & Hisleaf & HP1 & Hperm & Hord).
  rewrite (list_insert_id heap 0 x Hx) in Hperm, Hord.
  destruct (_siftdown_spec leaf (<[leaf := x]> heap1) x)
    as (heap' & Hrun' & Hperm' & Hord').
  { by lk. }
  { by apply Forall_insert. }
  exists heap'. split; [|split].
  - unfold _siftup, len. unfold bind at 1, gets.
    unfold bind at 1, getitem. rewrite Hx.
    unfold bind at 1. rewrite Hrun.
    unfold bind at 1, setitem. by rewrite decide_True.
  - by rewrite Hperm'.
  - intros OC He. apply Hord'; [done|by apply Hord|].
    intros c y z Hc Hcp Hy Hz. pose proof (parent_spec c Hc).
    apply lookup_lt_Some in Hy. rewrite length_insert in Hy. lia.
Qed.

Lemma heappop_spec heap :
  heap ≠ [] → Forall P heap →
  ∃ v heap',
    heappop heap = (Ret v, heap') ∧
    heap !! 0%nat = Some v ∧
    v :: heap' ≡ₚ heap ∧
    (order_class P → heap_ok heap → heap_ok heap').
Proof.
  intros Hne HP.
  destruct heap as [|lastelt init _] using rev_ind; [done|].
  apply Forall_app in HP as [HPi HPl]. rewrite Forall_singleton in HPl.
  unfold heappop, list_pop, len. unfold bind at 1.
  rewrite last_snoc, removelast_last.
  unfold bind at 1, gets.
  destruct init as [|v init].
  - exists lastelt, []. simpl. split; [done|]. split; [done|]. split; [done|].
    by intros _ _ i x p Hi Hx.
  - rewrite bool_decide_eq_true_2 by done.
    destruct (_siftup_spec (lastelt :: init) lastelt)
      as (heap' & Hrun & Hperm & Hord); [done| |].
    { apply Forall_cons. split; [done|]. by apply Forall_cons in HPi as [_ ?]. }
    exists v, heap'. split; [|split; [reflexivity|split]].
    + unfold bind at 1, getitem. simpl.
      unfold bind at 1, setitem. rewrite decide_True by (simpl; lia). simpl.
      unfold bind at 1. rewrite Hrun. done.
    + rewrite Hperm. simpl.
      f_equiv. apply Permutation_cons_append.
    + intros OC Hok. apply Hord; [done|]. constructor.
      * intros i y p Hi _ Hpi Hy Hp. pose proof (parent_spec i Hi).
        destruct i as [|i]; [lia|].
        destruct (parent (S i)) as [|j] eqn:Ej; [done|].
        simpl in Hy, Hp.
        eapply (Hok (S i)); [done| |rewrite Ej]; simpl;
          by apply lookup_app_l_Some.
      * intros ? ? ? ?. lia.
Qed.

(** The root of a heap is a smallest item. *)
Lemma root_min heap r :
  order_class P → Forall P heap → heap_ok heap → heap !! 0%nat = Some r →
  ∀ i x, heap !! i = Some x → le r x.
Proof.
  intros OC HP Hok Hr.
  assert (HPl : ∀ i y, heap !! i = Some y → P y).
  { intros i y Hy. by eapply (Forall_lookup_1 P heap). }
  induction i as [i IH] using lt_wf_ind. intros x Hx.
  destruct (decide (0 < i)%nat) as [Hi|Hi].
  - pose proof (parent_spec i Hi).
    destruct (lookup_lt_is_Some_2 heap (parent i)) as [p Hp].
    { apply lookup_lt_Some in Hx. lia. }
    eapply (class_trans P OC r p x); eauto.
    apply (IH (parent i)); [lia|done].
  - assert (i = 0%nat) as -> by lia. assert (x = r) as -> by congruence.
    apply class_refl; eauto.
Qed.
End Class.

End HeapFacts.

(** ** The priority queue *)

Module QueueFacts.
Import heapq HeapOrder PriorityQueue Encoding Programs HeapFacts.

Lemma is_int_class : order_class is_int.
Proof.
  constructor.
  - intros x y [a ->] [b ->]. by eexists.
  - intros x y [a ->] [b ->]. simpl. intros [= H]. f_equal.
    apply Z.ltb_lt in H. apply Z.ltb_ge. lia.
  - intros x y z [a ->] [b ->] [c ->]. unfold le. simpl.
    intros [= H1] [= H2]. f_equal.
    apply Z.ltb_ge in H1, H2. apply Z.ltb_ge. lia.
Qed.

Lemma on_data_run {A} (m : M (list pyval) A) self o heap :
  m (_data self) = (o, heap) →
  on_data m self = (o, mkPQ heap (_reverse self) (_compare self)).
Proof. intros H. unfold on_data. by rewrite H. Qed.

Lemma push_stored value self :
  push value self = on_data (heappush (stored_item (_reverse self) value)) self.
Proof.
  unfold push, bind, gets, stored_item. destruct (_reverse self); [|done].
  by destruct value.
Qed.

(** [push] on a list of values that can be compared. *)
Lemma push_spec P value self :
  (∀ x y, P x → P y → ∃ b, py_lt x y = Ret b) →
  Forall P (_data self) → P (stored_item (_reverse self) value) →
  ∃ heap',
    push value self = (Ret tt, mkPQ heap' (_reverse self) (_compare self)) ∧
    heap' ≡ₚ stored_item (_reverse self) value :: _data self ∧
    (order_class P → heap_ok (_data self) → heap_ok heap').
Proof.
  intros Ht HP Hv.
  destruct (heappush_spec P Ht (_data self) _ HP Hv) as (heap' & Hrun & Hperm & Hord).
  exists heap'. split; [|done].
  rewrite push_stored. by apply on_data_run.
Qed.

Lemma returned_value_run reverse item :
  (if reverse && isinstance_number item
   then lift_outcome (py_neg item) else ret item) =
  (ret (returned_value reverse item) : M PriorityQueue pyval).
Proof. by destruct reverse, item. Qed.

Lemma top_spec self item :
  _data self !! 0%nat = Some item →
  top self = (Ret (returned_value (_reverse self) item), self).
Proof.
  intros Hi. unfold top, empty. unfold bind at 1, gets.
  rewrite bool_decide_eq_false_2
    by (apply lookup_lt_Some in Hi; lia).
  unfold bind at 1. rewrite (on_data_run _ self (Ret item) (_data self))
    by (unfold getitem; by rewrite Hi).
  unfold bind, gets. cbn [_reverse]. rewrite returned_value_run.
  by destruct self.
Qed.

Lemma pop_spec P self :
  (∀ x y, P x → P y → ∃ b, py_lt x y = Ret b) →
  _data self ≠ [] → Forall P (_data self) →
  ∃ item heap',
    pop self = (Ret (returned_value (_reverse self) item),
                mkPQ heap' (_reverse self) (_compare self)) ∧
    _data self !! 0%nat = Some item ∧
    item :: heap' ≡ₚ _data self ∧
    (order_class P → heap_ok (_data self) → heap_ok heap').
Proof.
  intros Ht Hne HP.
  destruct (heappop_spec P Ht (_data self) Hne HP)
    as (item & heap' & Hrun & Hroot & Hperm & Hord).
  exists item, heap'. split; [|done].
  unfold pop, empty. unfold bind at 1, gets.
  rewrite bool_decide_eq_false_2 by (by destruct (_data self)).
  unfold bind at 1. rewrite (on_data_run _ _ _ _ Hrun).
  unfold bind, gets. cbn [_reverse]. by rewrite returned_value_run.
Qed.

Lemma push_all_spec P elements : ∀ self,
  (∀ x y, P x → P y → ∃ b, py_lt x y = Ret b) →
  Forall P (_data self) →
  Forall P (stored_item (_reverse self) <$> elements) →
  ∃ heap',
    push_all elements self = (Ret tt, mkPQ heap' (_reverse self) (_compare self)) ∧
    heap' ≡ₚ (stored_item (_reverse self) <$> elements) ++ _data self ∧
    (order_class P → heap_ok (_data self) → heap_ok heap').
Proof.
  induction elements as [|e elements IH]; intros self Ht HP Hes.
  - exists (_data self). by destruct self.
  - rewrite fmap_cons in Hes. apply Forall_cons in Hes as [He Hes].
    destruct (push_spec P e self Ht HP He) as (heap1 & Hrun1 & Hperm1 & Hord1).
    destruct (IH (mkPQ heap1 (_reverse self) (_compare self)) Ht)
      as (heap2 & Hrun2 & Hperm2 & Hord2).
    { cbn [_data]. rewrite Hperm1. by apply Forall_cons. }
    { done. }
    cbn [_data _reverse _compare] in *.
    exists heap2. split; [|split].
    + cbn [push_all]. unfold bind. by rewrite Hrun1.
    + rewrite Hperm2, Hperm1, fmap_cons. by rewrite <- Permutation_middle.
    + intros OC Hok. by apply Hord2, Hord1.
Qed.

Lemma pop_n_spec P n : ∀ self,
  (∀ x y, P x → P y → ∃ b, py_lt x y = Ret b) →
  (n ≤ length (_data self))%nat → Forall P (_data self) →
  ∃ items heap',
    pop_n n self = (Ret (returned_value (_reverse self) <$> items),
                    mkPQ heap' (_reverse self) (_compare self)) ∧
    length items = n ∧
    items ++ heap' ≡ₚ _data self ∧
    (order_class P → heap_ok (_data self) →
     heap_ok heap' ∧ StronglySorted le items ∧
     ∀ x y, x ∈ items → y ∈ heap' → le x y).
Proof.
  induction n as [|n IH]; intros self Ht Hn HP.
  - exists [], (_data self). split; [by destruct self|]. split; [done|].
    split; [done|]. intros _ Hok. split; [done|]. split; [constructor|].
    by intros x y ?%elem_of_nil.
  - destruct (pop_spec P self Ht) as (item & heap1 & Hrun1 & Hroot & Hperm1 & Hord1);
      [by destruct (_data self); [simpl in Hn; lia|] | done |].
    assert (Forall P (item :: heap1)) as [HPi HP1]%Forall_cons by by rewrite Hperm1.
    destruct (IH (mkPQ heap1 (_reverse self) (_compare self)) Ht)
      as (items & heap2 & Hrun2 & Hlen2 & Hperm2 & Hord2).
    { cbn [_data]. apply Permutation_length in Hperm1. simpl in Hperm1. lia. }
    { done. }
    cbn [_data _reverse _compare] in *.
    exists (item :: items), heap2. split; [|split; [|split]].
    + cbn [pop_n]. unfold bind at 1. rewrite Hrun1.
      unfold bind at 1. rewrite Hrun2. done.
    + simpl. by rewrite Hlen2.
    + by rewrite <- Hperm1, <- Hperm2.
    + intros OC Hok.
      destruct (Hord2 OC (Hord1 OC Hok)) as (Hok2 & Hsorted & Hbelow).
      assert (Hmin : ∀ y, y ∈ _data self → le item y).
      { intros y [i Hy]%list_elem_of_lookup.
        by apply (root_min P (_data self) item OC HP Hok Hroot i). }
      split; [done|]. split.
      * constructor; [done|]. apply Forall_forall. intros y Hy.
        apply Hmin. rewrite <- Hperm1, <- Hperm2. right.
        apply elem_of_app. by left.
      * intros x y [->|Hx]%elem_of_cons Hy; [|by apply Hbelow].
        apply Hmin. rewrite <- Hperm1, <- Hperm2. right.
        apply elem_of_app. by right.
Qed.

Lemma comparableb_sound l : comparableb l = true → comparable l.
Proof.
  unfold comparableb. rewrite forallb_forall. intros H x y Hx Hy.
  apply list_elem_of_In in Hx, Hy.
  specialize (H x Hx). rewrite forallb_forall in H. specialize (H y Hy).
  destruct (py_lt x y); [by eexists|done].
Qed.

Lemma StronglySorted_fmap_on {A B} (R : relation A) (R' : relation B) (f : A → B) l :
  (∀ x y, x ∈ l → y ∈ l → R x y → R' (f x) (f y)) →
  StronglySorted R l → StronglySorted R' (f <$> l).
Proof.
  intros Hf Hs. induction Hs as [|x l Hs IH Hx]; [constructor|].
  rewrite fmap_cons. constructor.
  - apply IH. intros a b Ha Hb. apply Hf; by right.
  - apply Forall_fmap, Forall_forall. intros y Hy. simpl.
    rewrite Forall_forall in Hx. apply Hf; [by left|by right|by apply Hx].
Qed.

Lemma push_then_pop_all_spec P elements self :
  (∀ x y, P x → P y → ∃ b, py_lt x y = Ret b) →
  PQ._data self = [] →
  Forall P (stored_item (PQ._reverse self) <$> elements) →
  ∃ items,
    push_then_pop_all elements self =
      (Ret (returned_value (PQ._reverse self) <$> items),
       PQ.mkPQ [] (PQ._reverse self) (PQ._compare self)) ∧
    items ≡ₚ stored_item (PQ._reverse self) <$> elements ∧
    (order_class P → StronglySorted le items).
Proof.
  intros Ht Hempty HP.
  destruct (push_all_spec P elements self Ht) as (heap1 & Hrun1 & Hperm1 & Hord1);
    [by rewrite Hempty | done |].
  rewrite Hempty, app_nil_r in Hperm1.
  destruct (pop_n_spec P (length heap1) (PQ.mkPQ heap1 (PQ._reverse self) (PQ._compare self)) Ht)
    as (items & heap2 & Hrun2 & Hlen2 & Hperm2 & Hord2);
    [done | cbn [PQ._data]; by rewrite Hperm1 |].
  cbn [PQ._data PQ._reverse PQ._compare] in *.
  assert (heap2 = []) as ->.
  { apply Permutation_length in Hperm2. rewrite length_app in Hperm2.
    destruct heap2; [done|simpl in Hperm2; lia]. }
  rewrite app_nil_r in Hperm2.
  exists items. split; [|split].
  - unfold push_then_pop_all, bind. rewrite Hrun1. unfold PQ.pop_all.
    cbn [PQ._data]. by rewrite Hrun2.
  - by rewrite Hperm2.
  - intros OC. apply Hord2; [done|]. apply Hord1; [done|].
    rewrite Hempty. by intros i x p _ ?.
Qed.

Lemma push_with_compare c value q :
  PQ.push value (with_compare c q) =
  ((PQ.push value q).1, with_compare c (PQ.push value q).2).
Proof.
  rewrite !push_stored. unfold PQ.on_data, with_compare. simpl.
  by destruct (heappush _ _).
Qed.

Lemma pop_with_compare c q :
  PQ.pop (with_compare c q) = ((PQ.pop q).1, with_compare c (PQ.pop q).2).
Proof.
  unfold PQ.pop, PQ.empty, bind, gets, PQ.on_data, with_compare. simpl.
  destruct (bool_decide _); [done|].
  destruct (heappop _) as [[v|e] h]; [|done]. simpl.
  rewrite !returned_value_run. done.
Qed.

Lemma push_all_with_compare c elements : ∀ q,
  PQ.push_all elements (with_compare c q) =
  ((PQ.push_all elements q).1, with_compare c (PQ.push_all elements q).2).
Proof.
  induction elements as [|e elements IH]; intros q; [done|].
  cbn [PQ.push_all]. unfold bind. rewrite push_with_compare.
  destruct (PQ.push e q) as [[[]|err] q1]; [|done]. simpl. apply IH.
Qed.

Lemma pop_n_with_compare c n : ∀ q,
  PQ.pop_n n (with_compare c q) =
  ((PQ.pop_n n q).1, with_compare c (PQ.pop_n n q).2).
Proof.
  induction n as [|n IH]; intros q; [done|].
  cbn [PQ.pop_n]. unfold bind at 1 3 5. rewrite pop_with_compare.
  destruct (PQ.pop q) as [[v|err] q1]; [|done]. simpl.
  unfold bind. rewrite IH.
  by destruct (PQ.pop_n n q1) as [[vs|err] q2].
Qed.

End QueueFacts.

(** * The properties of the specification *)

Import HeapOrder Encoding Programs ListFacts HeapFacts QueueFacts.
Module Import LS := LinkedSequence.

(** C5.  Construction and every sequence of calls of [push_front],
    [push_back], [pop_front], [pop_back] and [clear] (and of the
    accessors) leave a list in which: when it is not empty, [head.prev] and
    [tail.next] are [None]; following [next] from [head] meets exactly
    [size] nodes, and [b.prev] is [a] for any two of them with
    [a.next == b]; [size == 0] iff [head] and [tail] are both [None]; and
    [size == 1] iff [head] and [tail] are the same node.  The invariant
    holds after construction and after each further call, a call that
    raises included. *)
Theorem list_invariant_preserved {T} (initial_elements : option (list T))
    (cs : list (call T)) :
  rep_invariant (List_init initial_elements).2 ∧
  rep_invariant (run cs (List_init initial_elements).2).2.
Proof.
  split.
  - destruct (List_init_rep initial_elements) as (cells & _ & Hr & _).
    by eapply rep_rep_invariant.
  - destruct (run_init_refines initial_elements cs) as (cells & _ & Hr & _).
    by eapply rep_rep_invariant.
Qed.

(** C6.  For every sequence of calls on a list, each call returns what
    the same call returns on the reference double-ended queue (the value,
    or the empty-container error), sizes included, and the final sizes
    agree; in particular [push_back(10)], [push_back(20)], [push_front(5)]
    on an empty list give [front() == 5], [back() == 20], [size() == 3],
    then [pop_front()] returns 5 and leaves [size() == 2]. *)
Theorem list_refines_deque {T} (initial_elements : option (list T))
    (cs : list (call T)) :
  observe <$> (run cs (List_init initial_elements).2).1 =
    (ref_run cs (default [] initial_elements)).1 ∧
  _size (run cs (List_init initial_elements).2).2 =
    Z.of_nat (length (ref_run cs (default [] initial_elements)).2) ∧
  (run [PushBack 10; PushBack 20; PushFront 5; Front; Back; Size; PopFront; Size]
       (List_init None).2).1 =
    [Ret VNone; Ret VNone; Ret VNone; Ret (VElem 5); Ret (VElem 20);
     Ret (VInt 3); Ret (VElem 5); Ret (VInt 2)].
Proof.
  destruct (run_init_refines initial_elements cs) as (cells & Ho & Hr & Hv).
  split; [done|]. split; [|reflexivity].
  by rewrite (rep_size _ _ Hr), <- Hv, length_fmap.
Qed.

(** C8.  In the state that construction and any sequence of calls leave,
    iterating over the list terminates (after [size()] yields; more fuel
    changes nothing) and yields, front to back, exactly the values that
    the reference deque holds after the same calls: [size()] values in
    total. *)
Theorem list_iter_contents {T} (initial_elements : option (list T))
    (cs : list (call T)) (fuel : nat) :
  to_list (Z.to_nat (_size (run cs (List_init initial_elements).2).2) + fuel)
          (run cs (List_init initial_elements).2).2 =
    Some (Ret (ref_run cs (default [] initial_elements)).2) ∧
  Z.of_nat (length (ref_run cs (default [] initial_elements)).2) =
    _size (run cs (List_init initial_elements).2).2.
Proof.
  destruct (run_init_refines initial_elements cs) as (cells & Ho & Hr & Hv).
  rewrite <- Hv. split.
  - apply to_list_rep; [done|]. rewrite (rep_size _ _ Hr). lia.
  - by rewrite (rep_size _ _ Hr), length_fmap.
Qed.

(** C10.  On a list that a caller can reach and whose traversal yields
    the values [vs], at least two of them: [pop_front()] returns the first
    value, the traversal afterwards yields [vs] without its first value,
    and [back()] returns what it returned before; [pop_back()] returns the
    last value, the traversal afterwards yields [vs] without its last
    value, and [front()] returns what it returned before. *)
Theorem list_pop_frame {T} (s : List T) (vs : list T) (fuel : nat) :
  reachable s → to_list fuel s = Some (Ret vs) → (2 ≤ length vs)%nat →
  (∃ v s', pop_front s = (Ret v, s') ∧
           vs = v :: tail vs ∧
           to_list fuel s' = Some (Ret (tail vs)) ∧
           (back s').1 = (back s).1 ∧ is_ret (back s).1 = true) ∧
  (∃ v s', pop_back s = (Ret v, s') ∧
           vs = removelast vs ++ [v] ∧
           to_list fuel s' = Some (Ret (removelast vs)) ∧
           (front s').1 = (front s).1 ∧ is_ret (front s).1 = true).
Proof.
  intros [cells Hr]%reachable_rep Hl Hlen.
  assert (length cells ≤ fuel)%nat as Hfuel.
  { destruct (decide (length cells ≤ fuel)%nat) as [|Hgt]; [done|].
    unfold to_list, iter_start in Hl.
    rewrite (rep_head _ _ Hr), head_lookup in Hl.
    rewrite (iter_collect_short s cells fuel 0%nat) in Hl by (done || lia).
    done. }
  pose proof (to_list_inv _ _ _ _ Hr Hl) as ->.
  rewrite length_fmap in Hlen. split.
  - destruct cells as [|[l0 v0] cells]; [simpl in Hlen; lia|].
    destruct (pop_front_rep s l0 v0 cells Hr) as (s' & Hrun & Hr' & _).
    exists v0, s'. split; [done|]. split; [done|]. split.
    { apply to_list_rep; [done|]. simpl in Hfuel. lia. }
    destruct (cells_snoc cells) as [->|(cells' & lt & vt & ->)];
      [simpl in Hlen; lia|].
    rewrite (back_rep s' lt vt cells' Hr').
    by rewrite (back_rep s lt vt ((l0, v0) :: cells') Hr).
  - destruct (cells_snoc cells) as [->|(cells' & lt & vt & ->)];
      [simpl in Hlen; lia|].
    destruct (pop_back_rep s lt vt cells' Hr) as (s' & Hrun & Hr' & _).
    rewrite snoc_values, removelast_last.
    exists vt, s'. split; [done|]. split; [done|]. split.
    { apply to_list_rep; [done|]. rewrite length_app in Hfuel. lia. }
    destruct cells' as [|[l0 v0] cells'];
      [rewrite length_app in Hlen; simpl in Hlen; lia|].
    rewrite (front_rep s' l0 v0 cells' Hr').
    by rewrite (front_rep s l0 v0 (cells' ++ [(lt, vt)]) Hr).
Qed.

Lemma list_pop_frame_witness :
  reachable list_123 ∧ to_list 3 list_123 = Some (Ret [1; 2; 3]) ∧
  (pop_front list_123).1 = Ret 1 ∧ (pop_back list_123).1 = Ret 3.
Proof.
  assert (Hreach : reachable list_123) by apply reachable_init.
  assert (Hlist : to_list 3 list_123 = Some (Ret [1; 2; 3])) by reflexivity.
  split; [done|]. split; [done|].
  destruct (list_pop_frame list_123 [1; 2; 3] 3%nat Hreach Hlist)
    as [(v & s1 & H1 & Hv & _) (w & s2 & H2 & Hw & _)]; [simpl; lia|].
  rewrite H1, H2. simpl in *. split; congruence.
Defined.

(** C4.  On a list with [size() == 0], [pop_front], [pop_back], [front]
    and [back] raise [IndexError] (the empty-container error), and on a
    priority queue with [size() == 0] so do [pop] and [top]; the state
    after the failed call is the state before it, so [size()] is still
    0. *)
Theorem empty_container_errors {T} (s : List T) (q : PQ.PriorityQueue) :
  (LS.size s).1 = Ret 0 → (PQ.size q).1 = Ret 0 →
  pop_front s = (Raise (IndexError "List is empty"), s) ∧
  pop_back s = (Raise (IndexError "List is empty"), s) ∧
  front s = (Raise (IndexError "List is empty"), s) ∧
  back s = (Raise (IndexError "List is empty"), s) ∧
  PQ.pop q = (Raise (IndexError "Priority queue is empty"), q) ∧
  PQ.top q = (Raise (IndexError "Priority queue is empty"), q).
Proof.
  intros [= Hs] [= Hq].
  destruct (empty_raises s Hs) as (-> & -> & -> & ->).
  do 4 (split; [done|]).
  assert (length (PQ._data q) = 0%nat) as Hlen by lia.
  unfold PQ.pop, PQ.top, PQ.empty, bind, gets.
  by rewrite bool_decide_eq_true_2.
Qed.

Lemma empty_container_errors_witness :
  (LS.size empty_list).1 = Ret 0 ∧
  (PQ.size default_queue).1 = Ret 0 ∧
  pop_front empty_list = (Raise (IndexError "List is empty"), empty_list) ∧
  PQ.pop default_queue =
    (Raise (IndexError "Priority queue is empty"), default_queue).
Proof.
  assert (H1 : (LS.size empty_list).1 = Ret 0) by reflexivity.
  assert (H2 : (PQ.size default_queue).1 = Ret 0) by reflexivity.
  do 2 (split; [done|]).
  destruct (empty_container_errors empty_list default_queue H1 H2)
    as (-> & _ & _ & _ & -> & _).
  by split.
Defined.

(** C7.  On a list that a caller can reach, [push_front(v)] and
    [push_back(v)] return without raising and leave [size()] one larger;
    on a priority queue, so does [push(value)] for a value that is valid
    there, that is, whose stored form [<] can compare with the items in
    storage; and construction from initial elements returns without
    raising with all of them inserted (for the queue, from elements
    that are valid together). *)
Theorem insertion_never_fails {T} (s : List T) (v : T) (q : PQ.PriorityQueue)
    (value : pyval) (elements : list T) (initial : list pyval)
    (compare : option (pyval → pyval → bool)) :
  reachable s →
  comparable (stored_item (PQ._reverse q) value :: PQ._data q) →
  comparable (stored_item (match compare with None => true | Some _ => false end)
              <$> initial) →
  (∃ s', push_front v s = (Ret tt, s') ∧ _size s' = _size s + 1) ∧
  (∃ s', push_back v s = (Ret tt, s') ∧ _size s' = _size s + 1) ∧
  (∃ q', PQ.push value q = (Ret tt, q') ∧
         length (PQ._data q') = S (length (PQ._data q))) ∧
  ((List_init (Some elements)).1 = Ret tt ∧
   _size (List_init (Some elements)).2 = Z.of_nat (length elements)) ∧
  ((PQ.PriorityQueue_init (Some initial) compare).1 = Ret tt ∧
   length (PQ._data (PQ.PriorityQueue_init (Some initial) compare).2) =
     length initial).
Proof.
  intros [cells Hr]%reachable_rep Hcmp Hinit.
  split; [|split; [|split; [|split]]].
  - destruct (push_front_rep s cells v Hr) as (s' & ? & _ & ?). eauto.
  - destruct (push_back_rep s cells v Hr) as (s' & ? & _ & ?). eauto.
  - destruct (push_spec _ value q Hcmp) as (heap' & Hrun & Hperm & _).
    { apply Forall_forall. intros x Hx. by right. }
    { by left. }
    eexists. split; [done|]. cbn [PQ._data]. by rewrite Hperm.
  - destruct (List_init_rep (Some elements)) as (cells0 & -> & Hr0 & Hv0).
    split; [done|]. simpl in Hv0.
    by rewrite (rep_size _ _ Hr0), <- Hv0, length_fmap.
  - set (r := match compare with None => true | Some _ => false end) in *.
    destruct (push_all_spec _ initial (PQ.mkPQ [] r compare) Hinit)
      as (heap' & Hrun & Hperm & _).
    { done. }
    { cbn [PQ._reverse]. by apply Forall_forall. }
    cbn [PQ._data PQ._reverse PQ._compare] in *.
    assert (PQ.PriorityQueue_init (Some initial) compare =
            (Ret tt, PQ.mkPQ heap' r compare)) as ->.
    { unfold PQ.PriorityQueue_init. fold r. destruct initial; [|done].
      simpl in Hrun. by injection Hrun as <-. }
    split; [done|]. cbn [PQ._data snd].
    by rewrite Hperm, app_nil_r, length_fmap.
Qed.

Lemma insertion_never_fails_witness :
  reachable list_123 ∧
  comparable (stored_item true (PyInt 5) :: PQ._data queue_314) ∧
  comparable (stored_item true <$> [PyInt 2; PyInt 7]) ∧
  (push_front 0 list_123).1 = Ret tt ∧
  (PQ.push (PyInt 5) queue_314).1 = Ret tt.
Proof.
  assert (H1 : reachable list_123) by apply reachable_init.
  assert (H2 : comparable (stored_item true (PyInt 5) :: PQ._data queue_314))
    by (apply comparableb_sound; reflexivity).
  assert (H3 : comparable (stored_item true <$> [PyInt 2; PyInt 7]))
    by (apply comparableb_sound; reflexivity).
  do 3 (split; [done|]).
  destruct (insertion_never_fails list_123 0 queue_314 (PyInt 5) [1; 2]
              [PyInt 2; PyInt 7] None H1 H2 H3)
    as ((s' & -> & _) & _ & (q' & -> & _) & _).
  by split.
Defined.

(** C9, as amended.  On a priority queue that is not empty, [top()]
    returns a value and leaves the queue as it was (storage and
    [size()] unchanged); and when [<] can compare the stored items with
    each other, the [pop()] that follows returns that same value. *)
Theorem top_is_next_pop (q : PQ.PriorityQueue) :
  PQ._data q ≠ [] →
  ∃ v, PQ.top q = (Ret v, q) ∧
       (PQ.size (PQ.top q).2).1 = (PQ.size q).1 ∧
       (comparable (PQ._data q) →
        ∃ q', PQ.pop (PQ.top q).2 = (Ret v, q')).
Proof.
  intros Hne.
  assert (∃ item, PQ._data q !! 0%nat = Some item) as [item Hroot]
    by (destruct (PQ._data q); [done|by eexists]).
  exists (returned_value (PQ._reverse q) item).
  rewrite (top_spec q item Hroot). do 2 (split; [done|]).
  intros Hcmp.
  destruct (pop_spec _ q Hcmp Hne) as (item' & heap' & Hpop & Hroot' & _).
  { by apply Forall_forall. }
  assert (item' = item) as -> by congruence.
  eexists. exact Hpop.
Qed.

Lemma top_is_next_pop_witness :
  PQ._data queue_314 ≠ [] ∧ comparable (PQ._data queue_314) ∧
  (PQ.top queue_314).1 = Ret (PyInt 4) ∧ (PQ.pop queue_314).1 = Ret (PyInt 4).
Proof.
  assert (H1 : PQ._data queue_314 ≠ []) by done.
  assert (H2 : comparable (PQ._data queue_314))
    by (apply comparableb_sound; reflexivity).
  do 2 (split; [done|]).
  destruct (top_is_next_pop queue_314 H1) as (v & Ht & _ & Hp).
  destruct (Hp H2) as (q' & Hp').
  rewrite Ht in Hp'. cbn [snd] in Hp'. rewrite Ht, Hp'. cbn [fst].
  assert (v = PyInt 4) as -> by (vm_compute in Ht; congruence).
  by split.
Defined.

(** C9, as it is written, fails.  After [push(1)], [push(2)], [push(3)]
    on a default queue, [push("a")] raises [TypeError] and leaves its
    item behind the three that are stored.  On that queue, which is not
    empty, [top()] returns 3 and the [pop()] that follows raises
    [TypeError]: there is no value that both return. *)
Lemma top_then_pop_raises :
  (PQ.push (PyStr "a")
     (PQ.push_all [PyInt 1; PyInt 2; PyInt 3] default_queue).2).1 =
    Raise TypeError ∧
  PQ._data queue_123a =
    [PyInt (-3); PyInt (-1); PyInt (-2); PyTuple2 (PyStr "a") (PyInt (-1))] ∧
  PQ.empty queue_123a = (Ret false, queue_123a) ∧
  PQ.top queue_123a = (Ret (PyInt 3), queue_123a) ∧
  (PQ.pop (PQ.top queue_123a).2).1 = Raise TypeError ∧
  ¬ (∃ v q', PQ.top queue_123a = (Ret v, queue_123a) ∧
             PQ.pop (PQ.top queue_123a).2 = (Ret v, q')).
Proof.
  assert ((PQ.pop (PQ.top queue_123a).2).1 = Raise TypeError) as Hpop
    by reflexivity.
  do 4 (split; [reflexivity|]). split; [exact Hpop|].
  intros (v & q' & _ & Hp). rewrite Hp in Hpop. discriminate Hpop.
Qed.

(** ** The paths of the queue that do what the specification says *)

(** For integers the default queue is a max-priority queue: the values
    come back greatest first, each exactly once. *)
Theorem default_queue_ints_descending (ns : list Z) :
  ∃ out,
    (push_then_pop_all (PyInt <$> ns) default_queue).1 = Ret (PyInt <$> out) ∧
    out ≡ₚ ns ∧
    StronglySorted Z.ge out.
Proof.
  destruct (push_then_pop_all_spec is_int (PyInt <$> ns) default_queue)
    as (items & Hrun & Hperm & Hord).
  { apply is_int_class. }
  { done. }
  { apply Forall_fmap, Forall_fmap, Forall_forall. intros n _. by eexists. }
  cbn [PQ._reverse default_queue PQ.PriorityQueue_init snd] in *.
  rewrite <- list_fmap_compose in Hperm.
  assert (Forall is_int items) as Hint.
  { rewrite Hperm. apply Forall_fmap, Forall_forall. intros n _. by eexists. }
  exists ((λ x, - int_of x)%Z <$> items). split; [|split].
  - rewrite Hrun. cbn [fst]. f_equal. rewrite <- list_fmap_compose.
    apply Forall_fmap_ext_1. eapply Forall_impl; [exact Hint|].
    by intros x [n ->].
  - rewrite Hperm, <- list_fmap_compose.
    assert (((λ x, - int_of x)%Z ∘ (stored_item true ∘ PyInt)) <$> ns = ns) as ->;
      [|done].
    rewrite <- (list_fmap_id ns) at 2.
    apply list_fmap_ext. intros i n _. simpl. lia.
  - eapply StronglySorted_fmap_on; [|apply Hord, is_int_class].
    rewrite Forall_forall in Hint.
    intros x y [a ->]%Hint [b ->]%Hint. unfold le. simpl.
    intros [= H]. apply Z.ltb_ge in H. lia.
Qed.

(** The scenario of the specification: [push(3)], [push(1)], [push(4)],
    [push(1)] on a default queue, then [pop()] four times. *)
Example default_queue_scenario :
  (push_then_pop_all [PyInt 3; PyInt 1; PyInt 4; PyInt 1] default_queue).1 =
    Ret [PyInt 4; PyInt 3; PyInt 1; PyInt 1].
Proof. reflexivity. Qed.

(** A queue built with a comparator returns the values it was given,
    each exactly once, whenever [<] can compare them. *)
Theorem custom_queue_round_trip (compare : pyval → pyval → bool)
    (elements : list pyval) :
  comparable elements →
  ∃ out,
    (push_then_pop_all elements (custom_queue compare)).1 = Ret out ∧
    out ≡ₚ elements.
Proof.
  intros Hcmp.
  destruct (push_then_pop_all_spec (λ x, x ∈ elements) elements (custom_queue compare))
    as (items & Hrun & Hperm & _).
  { done. }
  { done. }
  { cbn [PQ._reverse custom_queue PQ.PriorityQueue_init snd stored_item].
    rewrite list_fmap_id. by apply Forall_forall. }
  cbn [PQ._reverse custom_queue PQ.PriorityQueue_init snd stored_item
       returned_value] in *.
  rewrite list_fmap_id in Hperm, Hrun. exists items. by rewrite Hrun.
Qed.

(** The comparator is stored and never called: queues that differ in it
    only return the same values in the same order. *)
Theorem comparator_is_ignored (compare compare' : pyval → pyval → bool)
    (elements : list pyval) :
  (push_then_pop_all elements (custom_queue compare)).1 =
  (push_then_pop_all elements (custom_queue compare')).1.
Proof.
  change (custom_queue compare')
    with (with_compare (Some compare') (custom_queue compare)).
  unfold push_then_pop_all, bind. rewrite push_all_with_compare.
  destruct (PQ.push_all elements (custom_queue compare)) as [[[]|err] q1]; [|done].
  simpl. unfold PQ.pop_all. cbn [with_compare PQ._data].
  change (PQ.mkPQ (PQ._data q1) (PQ._reverse q1) (Some compare'))
    with (with_compare (Some compare') q1).
  by rewrite pop_n_with_compare.
Qed.

(** ** Where the queue departs from the specification *)

(** C1.  The claim is that a default queue returns what was pushed,
    greatest first, for strings as for numbers.  On [push("a")],
    [push("b")] the code returns the tuples [("a", -1)] and [("b", -1)],
    in that order: not the strings ["b"], ["a"], and the value that comes
    first is not the greater one. *)
Theorem default_queue_strings_ascending :
  (push_then_pop_all [PyStr "a"; PyStr "b"] default_queue).1 =
    Ret [PyTuple2 (PyStr "a") (PyInt (-1)); PyTuple2 (PyStr "b") (PyInt (-1))] ∧
  (push_then_pop_all [PyStr "a"; PyStr "b"] default_queue).1 ≠
    Ret [PyStr "b"; PyStr "a"] ∧
  ¬ higher_or_equal (PyStr "a") (PyStr "b").
Proof.
  split; [reflexivity|]. split; [by vm_compute|].
  by vm_compute.
Qed.

(** C2.  The claim is that with a comparator [compare], [compare(a, b)]
    true and [compare(b, a)] false make [pop()] return [a] before [b].
    With [compare = lambda a, b: a > b], [a = 2] and [b = 1], the code
    returns 1 before 2, whichever is pushed first. *)
Theorem custom_queue_pops_smallest_first :
  greater (PyInt 2) (PyInt 1) = true ∧ greater (PyInt 1) (PyInt 2) = false ∧
  (push_then_pop_all [PyInt 2; PyInt 1] (custom_queue greater)).1 =
    Ret [PyInt 1; PyInt 2] ∧
  (push_then_pop_all [PyInt 1; PyInt 2] (custom_queue greater)).1 =
    Ret [PyInt 1; PyInt 2].
Proof. repeat split; reflexivity. Qed.

(** C3.  The claim is that pushing n elements and popping n times
    returns the n elements, each exactly once.  On a default queue,
    [push("a")] followed by [pop()] returns the tuple [("a", -1)], which
    is not the string that was pushed. *)
Theorem default_queue_string_comes_back_wrapped :
  (push_then_pop_all [PyStr "a"] default_queue).1 =
    Ret [PyTuple2 (PyStr "a") (PyInt (-1))] ∧
  ¬ [PyTuple2 (PyStr "a") (PyInt (-1))] ≡ₚ [PyStr "a"].
Proof.
  split; [reflexivity|]. intros H. by apply Permutation_singleton_r in H.
Qed.

(** * Further properties of the code *)

(** ** Vector, Stack, Queue and Deque *)

Module SequenceFacts.
Section Facts.
Context {T : Type}.
Implicit Types (d l : list T).

Lemma position_nat n (i : nat) :
  (i < n)%nat → PyList.position n (Z.of_nat i) = Some i.
Proof.
  intros Hi. unfold PyList.position.
  rewrite decide_True by lia. by rewrite Nat2Z.id.
Qed.

Lemma position_negative n (i : nat) :
  (i < n)%nat → PyList.position n (Z.of_nat i - Z.of_nat n) = Some i.
Proof.
  intros Hi. unfold PyList.position.
  rewrite decide_False by lia. rewrite decide_True by lia.
  f_equal. lia.
Qed.

Lemma position_None n i :
  i < - Z.of_nat n ∨ Z.of_nat n ≤ i → PyList.position n i = None.
Proof.
  intros Hi. unfold PyList.position.
  rewrite decide_False by lia. by rewrite decide_False by lia.
Qed.

Lemma getitem_nat l (i : nat) x :
  l !! i = Some x → PyList.getitem (Z.of_nat i) l = (Ret x, l).
Proof.
  intros Hx. unfold PyList.getitem.
  rewrite position_nat by (by eapply lookup_lt_Some). by rewrite Hx.
Qed.

Lemma getitem_negative l (i : nat) x :
  l !! i = Some x →
  PyList.getitem (Z.of_nat i - Z.of_nat (length l)) l = (Ret x, l).
Proof.
  intros Hx. unfold PyList.getitem.
  rewrite position_negative by (by eapply lookup_lt_Some). by rewrite Hx.
Qed.

Lemma getitem_last l x :
  last l = Some x → PyList.getitem (-1) l = (Ret x, l).
Proof.
  intros Hx. rewrite last_lookup in Hx.
  assert (0 < length l)%nat by (apply lookup_lt_Some in Hx; lia).
  replace (-1) with (Z.of_nat (pred (length l)) - Z.of_nat (length l)) by lia.
  by apply getitem_negative.
Qed.

Lemma deque_getitem_head x d : PyDeque.getitem 0 (x :: d) = (Ret x, x :: d).
Proof. done. Qed.

Lemma deque_getitem_last d x :
  last d = Some x → PyDeque.getitem (-1) d = (Ret x, d).
Proof.
  intros Hx. rewrite last_lookup in Hx.
  assert (0 < length d)%nat by (apply lookup_lt_Some in Hx; lia).
  unfold PyDeque.getitem.
  replace (-1) with (Z.of_nat (pred (length d)) - Z.of_nat (length d)) by lia.
  rewrite position_negative by lia. by rewrite Hx.
Qed.

Lemma insert_position_nat n (i : nat) :
  (i ≤ n)%nat → PyList.insert_position n (Z.of_nat i) = i.
Proof.
  intros Hi. unfold PyList.insert_position.
  rewrite decide_False by lia. lia.
Qed.

Lemma delete_middle l1 x l2 : delete (length l1) (l1 ++ x :: l2) = l1 ++ l2.
Proof. induction l1 as [|y l1 IH]; [done|]. simpl. by rewrite IH. Qed.

Lemma stack_push_all xs : ∀ d, Stack.push_all xs d = (Ret tt, d ++ xs).
Proof.
  induction xs as [|x xs IH]; intros d.
  - by rewrite app_nil_r.
  - cbn [Stack.push_all]. unfold bind, Stack.push, PyList.append, modify.
    rewrite IH. by rewrite <- app_assoc.
Qed.

Lemma stack_pop_snoc d x : Stack.pop (d ++ [x]) = (Ret x, d).
Proof.
  unfold Stack.pop, Stack.empty, PyList.len, bind, gets, ret.
  rewrite bool_decide_eq_false_2 by (rewrite length_app; simpl; lia).
  unfold PyList.pop. by rewrite last_snoc, removelast_last.
Qed.

Lemma stack_pop_n xs : ∀ d, Stack.pop_n (length xs) (d ++ xs) = (Ret (rev xs), d).
Proof.
  induction xs as [|x xs IH] using rev_ind; intros d.
  - by rewrite app_nil_r.
  - rewrite length_app, Nat.add_1_r, app_assoc, rev_unit.
    cbn [Stack.pop_n]. unfold bind at 1. rewrite stack_pop_snoc.
    unfold bind. by rewrite IH.
Qed.

Lemma queue_push_all xs : ∀ d, Queue.push_all xs d = (Ret tt, d ++ xs).
Proof.
  induction xs as [|x xs IH]; intros d.
  - by rewrite app_nil_r.
  - cbn [Queue.push_all]. unfold bind, Queue.push, PyDeque.append, modify.
    rewrite IH. by rewrite <- app_assoc.
Qed.

Lemma queue_pop_n d : Queue.pop_n (length d) d = (Ret d, []).
Proof.
  induction d as [|x d IH]; [done|].
  cbn [length Queue.pop_n]. unfold bind at 1.
  unfold Queue.pop at 1, Queue.empty, PyList.len, bind, gets, ret. simpl.
  by rewrite IH.
Qed.

(** One call on a [Deque], against one step of the reference deque. *)
Lemma deque_exec_ref (c : LinkedSequence.call T) d :
  LinkedSequence.observe (Deque.exec c d).1 = (LinkedSequence.ref_step c d).1 ∧
  (Deque.exec c d).2 = (LinkedSequence.ref_step c d).2.
Proof.
  destruct c; try done.
  - by destruct d.
  - unfold Deque.exec, Deque.pop_back, Deque.empty, PyList.len, bind, gets, ret.
    destruct d as [|x d _] using rev_ind; [done|].
    rewrite bool_decide_eq_false_2 by (rewrite length_app; simpl; lia).
    unfold PyDeque.pop. simpl. by rewrite last_snoc.
  - by destruct d.
  - unfold Deque.exec, Deque.back, Deque.empty, PyList.len, bind, gets, ret.
    destruct d as [|x d _] using rev_ind; [done|].
    rewrite bool_decide_eq_false_2 by (rewrite length_app; simpl; lia).
    rewrite (deque_getitem_last _ x) by apply last_snoc.
    simpl. by rewrite last_snoc.
  - simpl. split; [|done]. do 2 f_equal. apply bool_decide_ext. lia.
Qed.

Lemma deque_run_ref (cs : list (LinkedSequence.call T)) : ∀ d,
  LinkedSequence.observe <$> (Deque.run cs d).1 = (LinkedSequence.ref_run cs d).1 ∧
  (Deque.run cs d).2 = (LinkedSequence.ref_run cs d).2.
Proof.
  induction cs as [|c cs IH]; intros d; [done|].
  destruct (deque_exec_ref c d) as [Ho Hd]. simpl.
  destruct (Deque.exec c d) as [o d1]. simpl in Ho, Hd.
  destruct (LinkedSequence.ref_step c d) as [o' d1']. simpl in Ho, Hd. subst.
  destruct (IH d1') as [Hos Hd2].
  destruct (Deque.run cs d1') as [os d2].
  destruct (LinkedSequence.ref_run cs d1') as [os' d2']. simpl in *.
  by subst.
Qed.

End Facts.
End SequenceFacts.

Import SequenceFacts.
(** X1.  For a position [i] that holds [x], [at(i)] and [v[i]] both
    return [x] and leave the vector as it is; [v[i - size]], the same
    position counted from the end, returns [x] as well, while
    [at(i - size)] raises [IndexError]: [at] takes no negative index. *)
Theorem vector_index_from_both_ends {T} (d : list T) (i : nat) (x : T) :
  d !! i = Some x →
  Vector.at_ (Z.of_nat i) d = (Ret x, d) ∧
  Vector.__getitem__ (Z.of_nat i) d = (Ret x, d) ∧
  Vector.__getitem__ (Z.of_nat i - Z.of_nat (length d)) d = (Ret x, d) ∧
  Vector.at_ (Z.of_nat i - Z.of_nat (length d)) d =
    (Raise (IndexError "Vector index out of range"), d).
Proof.
  intros Hx. assert (i < length d)%nat by by eapply lookup_lt_Some.
  split; [|split; [|split]].
  - unfold Vector.at_, Vector.size, PyList.len, bind, gets.
    rewrite !bool_decide_eq_false_2 by lia. simpl. by apply getitem_nat.
  - by apply getitem_nat.
  - by apply getitem_negative.
  - unfold Vector.at_, Vector.size, PyList.len, bind, gets.
    by rewrite (bool_decide_eq_true_2 (_ < 0)) by lia.
Qed.

Lemma vector_index_from_both_ends_witness :
  [10; 20; 30] !! 1%nat = Some 20 ∧
  Vector.at_ 1 [10; 20; 30] = (Ret 20, [10; 20; 30]) ∧
  Vector.__getitem__ (-2) [10; 20; 30] = (Ret 20, [10; 20; 30]).
Proof.
  assert (H : [10; 20; 30] !! 1%nat = Some 20) by reflexivity.
  split; [done|].
  destruct (vector_index_from_both_ends [10; 20; 30] 1 20 H) as (H1 & _ & H2 & _).
  split; [exact H1|exact H2].
Defined.

(** X2.  With an index below 0 or not below [size()], [at] and [erase]
    raise [IndexError] and leave the vector as it is.  [insert] does the
    same, except at [index == size()], where it appends the value as
    [push_back] does. *)
Theorem vector_out_of_range {T} (d : list T) (index : Z) (v : T) :
  index < 0 ∨ Z.of_nat (length d) ≤ index →
  Vector.at_ index d = (Raise (IndexError "Vector index out of range"), d) ∧
  Vector.erase index d = (Raise (IndexError "Vector index out of range"), d) ∧
  Vector.insert index v d =
    (if bool_decide (index = Z.of_nat (length d))
     then Vector.push_back v d
     else (Raise (IndexError "Vector index out of range"), d)).
Proof.
  intros Hout.
  unfold Vector.at_, Vector.erase, Vector.insert, Vector.size, PyList.len,
    bind, gets.
  assert (bool_decide (index < 0) || bool_decide (index >= Z.of_nat (length d))
          = true) as ->.
  { destruct Hout; [rewrite (bool_decide_eq_true_2 (index < 0)) by done; done|].
    rewrite (bool_decide_eq_true_2 (index >= _)) by lia. apply orb_true_r. }
  do 2 (split; [done|]).
  destruct (decide (index = Z.of_nat (length d))) as [->|Hne].
  - rewrite (bool_decide_eq_true_2 (_ = _)) by done.
    rewrite !bool_decide_eq_false_2 by lia. simpl.
    unfold PyList.insert, Vector.push_back, PyList.append, modify.
    rewrite insert_position_nat by done.
    by rewrite firstn_all, drop_all.
  - rewrite (bool_decide_eq_false_2 (_ = _)) by done.
    assert (bool_decide (index < 0) || bool_decide (index > Z.of_nat (length d))
            = true) as ->; [|done].
    destruct Hout; [rewrite (bool_decide_eq_true_2 (index < 0)) by done; done|].
    rewrite (bool_decide_eq_true_2 (index > _)) by lia. apply orb_true_r.
Qed.

Lemma vector_out_of_range_witness :
  (3 < 0 ∨ Z.of_nat (length [10; 20; 30]) ≤ 3) ∧
  Vector.at_ 3 [10; 20; 30] =
    (Raise (IndexError "Vector index out of range"), [10; 20; 30]) ∧
  Vector.insert 3 40 [10; 20; 30] = (Ret tt, [10; 20; 30; 40]).
Proof.
  assert (H : 3 < 0 ∨ Z.of_nat (length [10; 20; 30]) ≤ 3) by (right; simpl; lia).
  split; [done|].
  destruct (vector_out_of_range [10; 20; 30] 3 40 H) as (H1 & _ & H2).
  split; [exact H1|exact H2].
Defined.

(** X3.  For [0 <= i <= size()], [insert(i, v)] returns without raising;
    afterwards [at(i)] is [v], [size()] is one larger, the positions
    before [i] hold what they held and every later value has moved up by
    one; and [erase(i)] then gives the vector back as it was. *)
Theorem vector_insert_erase {T} (d : list T) (i : nat) (v : T) :
  (i ≤ length d)%nat →
  ∃ d', Vector.insert (Z.of_nat i) v d = (Ret tt, d') ∧
        Vector.at_ (Z.of_nat i) d' = (Ret v, d') ∧
        Vector.size d' = (Ret (Z.of_nat (length d) + 1), d') ∧
        (∀ j, (j < i)%nat → d' !! j = d !! j) ∧
        (∀ j, (i ≤ j)%nat → d' !! S j = d !! j) ∧
        Vector.erase (Z.of_nat i) d' = (Ret tt, d).
Proof.
  intros Hi. exists (take i d ++ v :: drop i d).
  assert (Hlen : length (take i d ++ v :: drop i d) = S (length d)).
  { rewrite length_app, length_take. simpl. rewrite length_drop. lia. }
  assert (Hat : (take i d ++ v :: drop i d) !! i = Some v).
  { rewrite lookup_app_r by (rewrite length_take; lia).
    rewrite length_take. by replace (i - i `min` length d)%nat with 0%nat by lia. }
  split; [|split; [|split; [|split; [|split]]]].
  - unfold Vector.insert, Vector.size, PyList.len, bind, gets.
    rewrite !bool_decide_eq_false_2 by lia. simpl.
    unfold PyList.insert, modify. by rewrite insert_position_nat.
  - unfold Vector.at_, Vector.size, PyList.len, bind, gets.
    rewrite !bool_decide_eq_false_2 by lia. simpl. by apply getitem_nat.
  - unfold Vector.size, PyList.len, gets. rewrite Hlen. do 2 f_equal. lia.
  - intros j Hj. rewrite lookup_app_l by (rewrite length_take; lia).
    by rewrite lookup_take_lt.
  - intros j Hj. rewrite lookup_app_r by (rewrite length_take; lia).
    rewrite length_take.
    replace (S j - i `min` length d)%nat with (S (j - i)) by lia. simpl.
    rewrite lookup_drop. f_equal. lia.
  - unfold Vector.erase, Vector.size, PyList.len, bind, gets.
    rewrite !bool_decide_eq_false_2 by lia. simpl.
    unfold PyList.delitem. rewrite position_nat by lia. f_equal.
    rewrite <- (take_drop i d) at 3.
    rewrite <- (delete_middle (take i d) v (drop i d)).
    f_equal. rewrite length_take. lia.
Qed.

Lemma vector_insert_erase_witness :
  (1 ≤ length [10; 30])%nat ∧
  Vector.insert 1 20 [10; 30] = (Ret tt, [10; 20; 30]) ∧
  Vector.erase 1 [10; 20; 30] = (Ret tt, [10; 30]).
Proof.
  assert (H : (1 ≤ length [10; 30])%nat) by (simpl; lia).
  split; [done|].
  destruct (vector_insert_erase [10; 30] 1 20 H) as (d' & H1 & _ & _ & _ & _ & H2).
  assert (d' = [10; 20; 30]) as -> by (vm_compute in H1; congruence).
  split; [exact H1|exact H2].
Defined.

(** X4.  A stack is last-in first-out: after pushing the values [xs]
    onto any stack, as many calls of [pop] return them in reverse order
    and leave the stack as it was before; [Stack(xs)] pops to the
    reverse of [xs]; and once an initially empty stack is popped back to
    empty, a further [pop] raises [IndexError]. *)
Theorem stack_lifo {T} (d xs : list T) :
  (Stack.push_all xs ;;; Stack.pop_n (length xs)) d = (Ret (rev xs), d) ∧
  Stack.pop_n (length xs) (Stack.Stack_init (Some xs)).2 = (Ret (rev xs), []) ∧
  (Stack.push_all xs ;;; Stack.pop_n (length xs) ;;; Stack.pop) [] =
    (Raise (IndexError "Stack is empty"), []).
Proof.
  split; [|split].
  - unfold bind. rewrite stack_push_all. apply stack_pop_n.
  - assert ((Stack.Stack_init (Some xs)).2 = [] ++ xs) as ->.
    { destruct xs; [done|]. unfold Stack.Stack_init.
      by rewrite stack_push_all. }
    apply stack_pop_n.
  - unfold bind. rewrite stack_push_all. by rewrite stack_pop_n.
Qed.

(** X5.  A queue is first-in first-out: after pushing the values [xs]
    onto a queue that holds [d], popping until it is empty returns the
    values of [d] and then those of [xs], in the order they were pushed;
    [Queue(xs)] pops to [xs]; and once the queue is empty [pop] raises
    [IndexError]. *)
Theorem queue_fifo {T} (d xs : list T) :
  (Queue.push_all xs ;;; Queue.pop_n (length d + length xs)) d =
    (Ret (d ++ xs), []) ∧
  Queue.pop_n (length xs) (Queue.Queue_init (Some xs)).2 = (Ret xs, []) ∧
  (Queue.push_all xs ;;; Queue.pop_n (length d + length xs) ;;; Queue.pop) d =
    (Raise (IndexError "Queue is empty"), []).
Proof.
  split; [|split].
  - unfold bind. rewrite queue_push_all, <- length_app. apply queue_pop_n.
  - assert ((Queue.Queue_init (Some xs)).2 = xs) as ->.
    { destruct xs; [done|]. unfold Queue.Queue_init.
      by rewrite queue_push_all. }
    apply queue_pop_n.
  - unfold bind. rewrite queue_push_all, <- length_app.
    by rewrite queue_pop_n.
Qed.

(** X6.  [List] and [Deque] cannot be told apart by their callers: from
    the same initial elements, every sequence of calls of [push_front],
    [push_back], [pop_front], [pop_back], [front], [back], [size],
    [empty] and [clear] returns the same values and raises [IndexError]
    at the same calls on both. *)
Theorem deque_agrees_with_list {T} (initial_elements : option (list T))
    (cs : list (call T)) :
  observe <$> (LS.run cs (List_init initial_elements).2).1 =
  observe <$> (Deque.run cs (Deque.Deque_init initial_elements)).1.
Proof.
  destruct (run_init_refines initial_elements cs) as (cells & -> & _).
  assert (Deque.Deque_init initial_elements = default [] initial_elements) as ->
    by (by destruct initial_elements as [[|]|]).
  by destruct (deque_run_ref cs (default [] initial_elements)) as [-> _].
Qed.
(** ** StlSet, StlMap and MultiMap *)

Module SetFacts.
Section Facts.
Context `{Countable T}.
Implicit Types (d : gset T) (value : T).

Lemma stlset_insert_present d value :
  value ∈ d → StlSet.insert value d = (Ret false, d).
Proof.
  intros Hin. unfold StlSet.insert, bind, gets.
  by rewrite bool_decide_eq_true_2.
Qed.

Lemma stlset_insert_absent d value :
  value ∉ d → StlSet.insert value d = (Ret true, {[value]} ∪ d).
Proof.
  intros Hin. unfold StlSet.insert, bind, gets.
  by rewrite bool_decide_eq_false_2.
Qed.

Lemma stlset_erase_present d value :
  value ∈ d → StlSet.erase value d = (Ret 1, d ∖ {[value]}).
Proof.
  intros Hin. unfold StlSet.erase, bind, gets.
  by rewrite bool_decide_eq_true_2.
Qed.

Lemma stlset_erase_absent d value :
  value ∉ d → StlSet.erase value d = (Ret 0, d).
Proof.
  intros Hin. unfold StlSet.erase, bind, gets.
  by rewrite bool_decide_eq_false_2.
Qed.

Lemma stlset_contains_run d value :
  StlSet.contains value d = (Ret (bool_decide (value ∈ d)), d).
Proof. done. Qed.

Lemma stlset_size_run d : StlSet.size d = (Ret (Z.of_nat (stdpp.base.size d)), d).
Proof. done. Qed.

Lemma size_list_to_set_le (l : list T) :
  (stdpp.base.size (list_to_set l : gset T) ≤ length l)%nat.
Proof.
  induction l as [|x l IH]; [done|]. simpl.
  rewrite size_union_alt, size_singleton.
  assert (stdpp.base.size (list_to_set l ∖ {[x]} : gset T)
          ≤ stdpp.base.size (list_to_set l : gset T))%nat
    by (apply subseteq_size; set_solver).
  lia.
Qed.

End Facts.
End SetFacts.

(** X7.  [insert(value)] returns [True] exactly when the value was not
    in the set; afterwards the value is in the set, nothing else has
    changed, [size()] has grown by one if [True] was returned and not at
    all otherwise, and inserting the same value again returns [False]. *)
Theorem stlset_insert `{Countable T} (d : gset T) (value : T) :
  ∃ d' n,
    StlSet.insert value d = (Ret (bool_decide (value ∉ d)), d') ∧
    StlSet.contains value d' = (Ret true, d') ∧
    (∀ w, w ≠ value → w ∈ d' ↔ w ∈ d) ∧
    StlSet.size d = (Ret n, d) ∧
    StlSet.size d' = (Ret (n + (if bool_decide (value ∉ d) then 1 else 0)), d') ∧
    StlSet.insert value d' = (Ret false, d').
Proof.
  destruct (decide (value ∈ d)) as [Hin|Hnin].
  - exists d, (Z.of_nat (stdpp.base.size d)).
    rewrite (bool_decide_eq_false_2 (value ∉ d)) by (by intros ?).
    rewrite SetFacts.stlset_insert_present, SetFacts.stlset_contains_run, SetFacts.stlset_size_run by done.
    rewrite bool_decide_eq_true_2 by done.
    repeat split; try done. by rewrite Z.add_0_r.
  - exists ({[value]} ∪ d), (Z.of_nat (stdpp.base.size d)).
    rewrite (bool_decide_eq_true_2 (value ∉ d)) by done.
    rewrite SetFacts.stlset_insert_absent, SetFacts.stlset_contains_run, !SetFacts.stlset_size_run by done.
    rewrite SetFacts.stlset_insert_present by set_solver.
    rewrite bool_decide_eq_true_2 by set_solver.
    repeat split; try done; try set_solver.
    rewrite size_union by set_solver. rewrite size_singleton.
    do 2 f_equal. lia.
Qed.

(** X8.  [erase(value)] returns 1 when the value was in the set and 0
    when it was not; afterwards the value is not in the set, nothing else
    has changed, and [size()] has gone down by the number returned.
    Erasing a value right after inserting it returns 1 and leaves the set
    without the value and otherwise as it was. *)
Theorem stlset_erase `{Countable T} (d : gset T) (value : T) :
  ∃ d' n,
    StlSet.erase value d = (Ret (if bool_decide (value ∈ d) then 1 else 0), d') ∧
    StlSet.contains value d' = (Ret false, d') ∧
    (∀ w, w ≠ value → w ∈ d' ↔ w ∈ d) ∧
    StlSet.size d = (Ret n, d) ∧
    StlSet.size d' = (Ret (n - (if bool_decide (value ∈ d) then 1 else 0)), d') ∧
    StlSet.erase value (StlSet.insert value d).2 = (Ret 1, d ∖ {[value]}).
Proof.
  assert (StlSet.erase value (StlSet.insert value d).2 = (Ret 1, d ∖ {[value]}))
    as Hround.
  { destruct (decide (value ∈ d)) as [Hin|Hnin].
    - rewrite SetFacts.stlset_insert_present by done. by apply SetFacts.stlset_erase_present.
    - rewrite SetFacts.stlset_insert_absent by done. cbn [snd].
      rewrite SetFacts.stlset_erase_present by set_solver.
      f_equal. apply set_eq. set_solver. }
  destruct (decide (value ∈ d)) as [Hin|Hnin].
  - exists (d ∖ {[value]}), (Z.of_nat (stdpp.base.size d)).
    rewrite (bool_decide_eq_true_2 (value ∈ d)) by done.
    rewrite SetFacts.stlset_erase_present, SetFacts.stlset_contains_run, !SetFacts.stlset_size_run by done.
    rewrite bool_decide_eq_false_2 by set_solver.
    repeat split; try done; try set_solver.
    rewrite size_difference by set_solver. rewrite size_singleton.
    assert (stdpp.base.size d ≠ 0%nat).
    { intros E%size_empty_inv. set_solver. }
    do 2 f_equal. lia.
  - exists d, (Z.of_nat (stdpp.base.size d)).
    rewrite (bool_decide_eq_false_2 (value ∈ d)) by done.
    rewrite SetFacts.stlset_erase_absent, SetFacts.stlset_contains_run, !SetFacts.stlset_size_run by done.
    rewrite bool_decide_eq_false_2 by done.
    repeat split; try done. by rewrite Z.sub_0_r.
Qed.

(** X9.  [StlSet(elements)] holds exactly the values that occur in
    [elements]: [contains(v)] tells whether [v] occurs there; [size()] is
    at most the number of elements given, and is that number when no
    value occurs twice. *)
Theorem stlset_init `{Countable T} (elements : list T) (v : T) :
  (StlSet.contains v (StlSet.StlSet_init (Some elements))).1 =
    Ret (bool_decide (v ∈ elements)) ∧
  (∃ n, (StlSet.size (StlSet.StlSet_init (Some elements))).1 = Ret n ∧
        n ≤ Z.of_nat (length elements) ∧
        (NoDup elements → n = Z.of_nat (length elements))).
Proof.
  assert (StlSet.StlSet_init (Some elements) = list_to_set elements) as ->.
  { by destruct elements. }
  split.
  - rewrite SetFacts.stlset_contains_run. cbn [fst]. f_equal. apply bool_decide_ext.
    apply elem_of_list_to_set.
  - eexists. rewrite SetFacts.stlset_size_run. split; [reflexivity|]. split.
    + apply inj_le, SetFacts.size_list_to_set_le.
    + intros Hnd. by rewrite size_list_to_set.
Qed.
Module MapFacts.
Section Facts.
Context `{Countable K} {V : Type}.
Implicit Types (d : gmap K V) (key : K) (value : V).

Lemma stlmap_insert_present d key value v0 :
  d !! key = Some v0 → StlMap.insert key value d = (Ret false, d).
Proof.
  intros Hk. unfold StlMap.insert, bind, gets.
  by rewrite bool_decide_eq_true_2 by (apply elem_of_dom; eauto).
Qed.

Lemma stlmap_insert_absent d key value :
  d !! key = None → StlMap.insert key value d = (Ret true, <[key := value]> d).
Proof.
  intros Hk. unfold StlMap.insert, bind, gets.
  by rewrite bool_decide_eq_false_2 by (by apply not_elem_of_dom).
Qed.

Lemma stlmap_erase_present d key v0 :
  d !! key = Some v0 → StlMap.erase key d = (Ret 1, delete key d).
Proof.
  intros Hk. unfold StlMap.erase, bind, gets.
  by rewrite bool_decide_eq_true_2 by (apply elem_of_dom; eauto).
Qed.

Lemma stlmap_erase_absent d key :
  d !! key = None → StlMap.erase key d = (Ret 0, d).
Proof.
  intros Hk. unfold StlMap.erase, bind, gets.
  by rewrite bool_decide_eq_false_2 by (by apply not_elem_of_dom).
Qed.

Lemma stlmap_at_present d key v0 : d !! key = Some v0 → StlMap.at_ key d = StlMap.Found v0.
Proof.
  intros Hk. unfold StlMap.at_.
  rewrite bool_decide_eq_false_2
    by (intros Hn; apply Hn, elem_of_dom; eauto).
  by rewrite Hk.
Qed.

Lemma stlmap_at_absent d key :
  d !! key = None → StlMap.at_ key d = StlMap.KeyError_not_found_in_map key.
Proof.
  intros Hk. unfold StlMap.at_.
  by rewrite bool_decide_eq_true_2 by (by apply not_elem_of_dom).
Qed.

Lemma stlmap_insert_all_spec (elements : list (K * V)) : ∀ d,
  ∃ d', StlMap.insert_all elements d = (Ret tt, d') ∧
        (∀ key, d' !! key =
                match d !! key with
                | Some v => Some v
                | None => StlMap.first_value key elements
                end) ∧
        dom d' = dom d ∪ list_to_set elements.*1.
Proof.
  induction elements as [|[k v] elements IH]; intros d.
  - exists d. split; [done|]. split.
    + intros key. by destruct (d !! key).
    + set_solver.
  - cbn [StlMap.insert_all]. unfold bind.
    destruct (d !! k) as [v0|] eqn:Hk.
    + rewrite (stlmap_insert_present d k v v0 Hk).
      destruct (IH d) as (d' & -> & Hlook & Hdom).
      exists d'. split; [done|]. split.
      * intros key. rewrite Hlook. cbn [StlMap.first_value].
        destruct (decide (k = key)) as [->|]; [by rewrite Hk|done].
      * rewrite Hdom. apply elem_of_dom_2 in Hk. set_solver.
    + rewrite (stlmap_insert_absent d k v Hk).
      destruct (IH (<[k := v]> d)) as (d' & -> & Hlook & Hdom).
      exists d'. split; [done|]. split.
      * intros key. rewrite Hlook. cbn [StlMap.first_value].
        destruct (decide (k = key)) as [->|Hne].
        -- by rewrite lookup_insert_eq, Hk.
        -- by rewrite lookup_insert_ne.
      * rewrite Hdom, dom_insert_L. set_solver.
Qed.

End Facts.
End MapFacts.

(** X10.  [insert] never overwrites, [map[key] = value] does: for a key
    that is in the map, [insert(key, value)] returns [False] and leaves
    the map as it is, so [at(key)] still returns the old value; after
    [map[key] = value], [at(key)] returns the new value, [size()] is the
    same, and the other keys have the values they had. *)
Theorem stlmap_insert_keeps_setitem_overwrites `{Countable K} {V : Type}
    (d : gmap K V) (key : K) (old value : V) :
  d !! key = Some old →
  StlMap.insert key value d = (Ret false, d) ∧
  StlMap.at_ key d = StlMap.Found old ∧
  ∃ d', StlMap.__setitem__ key value d = (Ret tt, d') ∧
        StlMap.at_ key d' = StlMap.Found value ∧
        (StlMap.size d').1 = (StlMap.size d).1 ∧
        ∀ k, k ≠ key → (StlMap.find k d').1 = (StlMap.find k d).1.
Proof.
  intros Hk. split; [by eapply MapFacts.stlmap_insert_present|].
  split; [by apply MapFacts.stlmap_at_present|].
  exists (<[key := value]> d). split; [done|]. split; [|split].
  - apply MapFacts.stlmap_at_present. by rewrite lookup_insert_eq.
  - unfold StlMap.size, gets. cbn [fst]. do 2 f_equal.
    apply map_size_insert_Some. eauto.
  - intros k Hne. unfold StlMap.find, gets. cbn [fst]. f_equal.
    by rewrite lookup_insert_ne.
Qed.

Lemma stlmap_insert_keeps_setitem_overwrites_witness :
  ({[1 := 5]} : gmap Z Z) !! 1 = Some 5 ∧
  StlMap.insert 1 7 ({[1 := 5]} : gmap Z Z) = (Ret false, {[1 := 5]}) ∧
  StlMap.at_ 1 ({[1 := 5]} : gmap Z Z) = StlMap.Found 5.
Proof.
  assert (Hk : ({[1 := 5]} : gmap Z Z) !! 1 = Some 5) by apply lookup_singleton_eq.
  split; [done|].
  destruct (stlmap_insert_keeps_setitem_overwrites {[1 := 5]} 1 5 7 Hk)
    as (H1 & H2 & _).
  split; [exact H1|exact H2].
Defined.

(** X11.  For a key that is not in the map, [at(key)] and [map[key]]
    raise [KeyError], [find(key)] returns [None] and [erase(key)] returns
    0, all leaving the map as it is; [insert(key, value)] returns [True],
    after which [at(key)] returns the value and [size()] is one larger;
    and [erase(key)] then returns 1 and gives the map back as it was. *)
Theorem stlmap_missing_key `{Countable K} {V : Type}
    (d : gmap K V) (key : K) (value : V) :
  d !! key = None →
  StlMap.at_ key d = StlMap.KeyError_not_found_in_map key ∧
  StlMap.__getitem__ key d = StlMap.KeyError key ∧
  StlMap.find key d = (Ret None, d) ∧
  StlMap.erase key d = (Ret 0, d) ∧
  ∃ d' n, StlMap.insert key value d = (Ret true, d') ∧
          StlMap.at_ key d' = StlMap.Found value ∧
          StlMap.size d = (Ret n, d) ∧
          StlMap.size d' = (Ret (n + 1), d') ∧
          StlMap.erase key d' = (Ret 1, d).
Proof.
  intros Hk. split; [by apply MapFacts.stlmap_at_absent|].
  split; [unfold StlMap.__getitem__; by rewrite Hk|].
  split; [unfold StlMap.find, gets; by rewrite Hk|].
  split; [by apply MapFacts.stlmap_erase_absent|].
  exists (<[key := value]> d), (Z.of_nat (stdpp.base.size d)).
  split; [by apply MapFacts.stlmap_insert_absent|].
  split; [apply MapFacts.stlmap_at_present; by rewrite lookup_insert_eq|].
  split; [done|]. split.
  - unfold StlMap.size, gets. rewrite map_size_insert_None by done.
    do 2 f_equal. lia.
  - rewrite (MapFacts.stlmap_erase_present _ key value) by (by rewrite lookup_insert_eq).
    f_equal. by rewrite delete_insert_id.
Qed.

Lemma stlmap_missing_key_witness :
  (∅ : gmap Z Z) !! 1 = None ∧
  StlMap.at_ 1 (∅ : gmap Z Z) = StlMap.KeyError_not_found_in_map 1 ∧
  StlMap.find 1 (∅ : gmap Z Z) = (Ret None, ∅).
Proof.
  assert (Hk : (∅ : gmap Z Z) !! 1 = None) by apply lookup_empty.
  split; [done|].
  destruct (stlmap_missing_key ∅ 1 7 Hk) as (H1 & _ & H2 & _).
  split; [exact H1|exact H2].
Defined.

(** X12.  [StlMap(elements)] never raises; for a key that occurs in
    several pairs the first pair wins: [find(key)] returns the value of
    the first pair of [elements] with that key ([None] when there is
    none); [keys()] is the set of the keys that occur, and [size()] is at
    most the number of pairs. *)
Theorem stlmap_init_first_wins `{Countable K} {V : Type}
    (elements : list (K * V)) :
  ∃ d, StlMap.StlMap_init (Some elements) = (Ret tt, d) ∧
       (∀ key, StlMap.find key d = (Ret (StlMap.first_value key elements), d)) ∧
       StlMap.keys d = (Ret (list_to_set elements.*1), d) ∧
       ∃ n, StlMap.size d = (Ret n, d) ∧ n ≤ Z.of_nat (length elements).
Proof.
  destruct (MapFacts.stlmap_insert_all_spec elements ∅) as (d & Hrun & Hlook & Hdom).
  exists d. split; [by destruct elements|]. split; [|split].
  - intros key. unfold StlMap.find, gets. rewrite Hlook.
    by rewrite lookup_empty.
  - unfold StlMap.keys, gets. rewrite Hdom, dom_empty_L. f_equal. f_equal.
    set_solver.
  - eexists. split; [done|]. apply inj_le.
    rewrite <- size_dom, Hdom, dom_empty_L, (left_id_L ∅ (∪)).
    etrans; [apply SetFacts.size_list_to_set_le|]. by rewrite length_fmap.
Qed.
Module MultiMapFacts.
Section Facts.
Context `{Countable K} `{EqDecision V}.
Implicit Types (d : gmap K (list V)) (key : K) (value : V).

Lemma total_empty : MultiMap.total (∅ : gmap K (list V)) = 0.
Proof. unfold MultiMap.total. by rewrite map_fold_empty. Qed.

Lemma total_insert_None d key values :
  d !! key = None →
  MultiMap.total (<[key := values]> d) = Z.of_nat (length values) + MultiMap.total d.
Proof.
  intros Hk. unfold MultiMap.total. rewrite map_fold_insert_L; [done| |done].
  intros. lia.
Qed.

Lemma total_delete d key values :
  d !! key = Some values →
  MultiMap.total d = Z.of_nat (length values) + MultiMap.total (delete key d).
Proof.
  intros Hk. unfold MultiMap.total.
  rewrite (map_fold_delete_L _ _ key values d); [done| |done].
  intros. lia.
Qed.

Lemma total_insert_Some d key values values' :
  d !! key = Some values →
  MultiMap.total (<[key := values']> d) =
  MultiMap.total d - Z.of_nat (length values) + Z.of_nat (length values').
Proof.
  intros Hk. rewrite <- insert_delete_eq.
  rewrite total_insert_None by apply lookup_delete_eq.
  rewrite (total_delete d key values Hk). lia.
Qed.

Lemma total_nonneg d : 0 ≤ MultiMap.total d.
Proof.
  induction d as [|key values d Hk IH] using map_ind.
  - by rewrite total_empty.
  - rewrite total_insert_None by done. lia.
Qed.

Lemma remove_first_absent value (l : list V) :
  value ∉ l → MultiMap.remove_first value l = l.
Proof.
  induction l as [|x l IH]; [done|]. intros Hn. simpl.
  rewrite decide_False by (intros ->; apply Hn; by left).
  f_equal. apply IH. intros ?. apply Hn. by right.
Qed.

Lemma remove_first_length value (l : list V) :
  value ∈ l → S (length (MultiMap.remove_first value l)) = length l.
Proof.
  induction l as [|x l IH]; [by intros ?%elem_of_nil|].
  intros Hin. simpl. destruct (decide (x = value)) as [|Hne]; [done|].
  simpl. f_equal. apply IH. by apply elem_of_cons in Hin as [->|].
Qed.

(** The map after [insert]. *)
Lemma insert_run d key value :
  MultiMap.insert key value d =
  (Ret tt, <[key := default [] (d !! key) ++ [value]]> d).
Proof.
  unfold MultiMap.insert, bind, gets, modify, ret.
  destruct (d !! key) as [values|] eqn:Hk.
  - rewrite bool_decide_eq_true_2 by (apply elem_of_dom; eauto).
    f_equal. apply map_eq. intros k.
    destruct (decide (k = key)) as [->|Hne].
    + by rewrite lookup_alter_eq, lookup_insert_eq, Hk.
    + by rewrite lookup_alter_ne, lookup_insert_ne.
  - rewrite bool_decide_eq_false_2 by (by apply not_elem_of_dom).
    f_equal. apply map_eq. intros k.
    destruct (decide (k = key)) as [->|Hne].
    + by rewrite lookup_alter_eq, !lookup_insert_eq.
    + by rewrite lookup_alter_ne, !lookup_insert_ne.
Qed.

(** The map after [erase]. *)
Lemma erase_run d key :
  MultiMap.erase key d =
  (Ret (Z.of_nat (length (default [] (d !! key)))), delete key d).
Proof.
  unfold MultiMap.erase, bind, gets, modify, ret.
  destruct (d !! key) as [values|] eqn:Hk.
  - rewrite bool_decide_eq_true_2 by (apply elem_of_dom; eauto).
    simpl. by rewrite ?Hk.
  - rewrite bool_decide_eq_false_2 by (by apply not_elem_of_dom).
    simpl. f_equal. symmetry. by apply delete_id.
Qed.

(** The map after [erase_one]. *)
Lemma erase_one_run d key value :
  MultiMap.erase_one key value d =
  if bool_decide (value ∈ default [] (d !! key)) then
    (Ret 1,
     match MultiMap.remove_first value (default [] (d !! key)) with
     | [] => delete key d
     | values => <[key := values]> d
     end)
  else (Ret 0, d).
Proof.
  unfold MultiMap.erase_one, bind, gets, modify, ret.
  destruct (d !! key) as [values|] eqn:Hk; cbn [default from_option id].
  - rewrite (bool_decide_eq_true_2 (key ∈ dom d)) by (apply elem_of_dom; eauto).
    cbn [andb].
    destruct (bool_decide (value ∈ values)); [|done].
    rewrite lookup_alter_eq, Hk.
    cbn [fmap option_fmap option_map default from_option id].
    destruct (MultiMap.remove_first value values) as [|x l] eqn:Hr.
    + rewrite bool_decide_eq_true_2 by done. f_equal.
      apply map_eq. intros k. destruct (decide (k = key)) as [->|Hne].
      * by rewrite !lookup_delete_eq.
      * by rewrite !lookup_delete_ne, lookup_alter_ne.
    + rewrite bool_decide_eq_false_2 by done. f_equal.
      apply map_eq. intros k. destruct (decide (k = key)) as [->|Hne].
      * by rewrite lookup_alter_eq, lookup_insert_eq, Hk, <- Hr.
      * by rewrite lookup_alter_ne, lookup_insert_ne.
  - rewrite (bool_decide_eq_false_2 (key ∈ dom d)) by (by apply not_elem_of_dom).
    cbn [andb]. by rewrite bool_decide_eq_false_2 by apply not_elem_of_nil.
Qed.

Lemma find_run d key : MultiMap.find key d = (Ret (default [] (d !! key)), d).
Proof. done. Qed.

Lemma size_run d : MultiMap.size d = (Ret (MultiMap.total d), d).
Proof. done. Qed.

Lemma no_empty_list_exec (c : MultiMap.call) d :
  MultiMap.no_empty_list d → MultiMap.no_empty_list (MultiMap.exec c d).
Proof.
  intros Hd key. destruct c as [k v|k|k v|]; cbn [MultiMap.exec].
  - rewrite insert_run. cbn [snd].
    destruct (decide (key = k)) as [->|Hne].
    + rewrite lookup_insert_eq. intros [= E]. by destruct (default [] (d !! k)).
    + rewrite lookup_insert_ne by done. apply Hd.
  - rewrite erase_run. cbn [snd].
    destruct (decide (key = k)) as [->|Hne].
    + by rewrite lookup_delete_eq.
    + rewrite lookup_delete_ne by done. apply Hd.
  - rewrite erase_one_run. destruct (bool_decide _); [|apply Hd]. cbn [snd].
    destruct (MultiMap.remove_first v (default [] (d !! k))) as [|x l] eqn:Hr.
    + destruct (decide (key = k)) as [->|Hne].
      * by rewrite lookup_delete_eq.
      * rewrite lookup_delete_ne by done. apply Hd.
    + destruct (decide (key = k)) as [->|Hne].
      * by rewrite lookup_insert_eq.
      * rewrite lookup_insert_ne by done. apply Hd.
  - unfold MultiMap.clear, modify. cbn [snd]. by rewrite lookup_empty.
Qed.

Lemma insert_all_spec (elements : list (K * V)) : ∀ d,
  ∃ d', MultiMap.insert_all elements d = (Ret tt, d') ∧
        (∀ key, default [] (d' !! key) =
                default [] (d !! key) ++
                (filter (λ p, p.1 = key) elements).*2) ∧
        MultiMap.total d' = MultiMap.total d + Z.of_nat (length elements) ∧
        (MultiMap.no_empty_list d → MultiMap.no_empty_list d').
Proof.
  induction elements as [|[k v] elements IH]; intros d.
  - exists d. split; [done|]. split; [|split; [simpl; lia|done]].
    intros key. by rewrite app_nil_r.
  - cbn [MultiMap.insert_all]. unfold bind. rewrite insert_run.
    destruct (IH (<[k := default [] (d !! k) ++ [v]]> d))
      as (d' & -> & Hfind & Htotal & Hinv).
    exists d'. split; [done|]. split; [|split].
    + intros key. rewrite Hfind. rewrite filter_cons. cbn [fst].
      destruct (decide (k = key)) as [->|Hne].
      * rewrite lookup_insert_eq. cbn [default from_option id].
        rewrite fmap_cons. cbn [snd]. by rewrite <- app_assoc.
      * by rewrite lookup_insert_ne.
    + rewrite Htotal. cbn [length].
      destruct (d !! k) as [values|] eqn:Hk; cbn [default from_option id].
      * rewrite (total_insert_Some d k values) by done.
        rewrite length_app. simpl. lia.
      * rewrite total_insert_None by done. simpl. lia.
    + intros Hd. apply Hinv.
      apply (no_empty_list_exec (MultiMap.Insert k v)) in Hd.
      cbn [MultiMap.exec] in Hd. by rewrite insert_run in Hd.
Qed.

Lemma reachable_no_empty_list d : MultiMap.reachable d → MultiMap.no_empty_list d.
Proof.
  induction 1 as [initial_elements|c d _ IH].
  - assert (MultiMap.no_empty_list (∅ : gmap K (list V))) as Hempty
      by (intros key; by rewrite lookup_empty).
    destruct initial_elements as [[|p elements]|]; try done.
    destruct (insert_all_spec (p :: elements) ∅) as (d' & Hrun & _ & _ & Hinv).
    unfold MultiMap.MultiMap_init. rewrite Hrun. by apply Hinv.
  - by apply no_empty_list_exec.
Qed.

Lemma total_zero_empty d : MultiMap.no_empty_list d → MultiMap.total d = 0 → d = ∅.
Proof.
  intros Hd Ht. apply map_empty. intros key.
  destruct (d !! key) as [values|] eqn:Hk; [|done].
  rewrite (total_delete d key values Hk) in Ht.
  pose proof (total_nonneg (delete key d)).
  destruct values; [by destruct (Hd key)|]. simpl in Ht. lia.
Qed.

End Facts.
End MultiMapFacts.

Import MultiMapFacts.

(** X13. [MultiMap.insert] never fails and never replaces: the value is
    appended after the values the key already has (none for a new key),
    [size()] grows by one, the key is contained afterwards, and the
    values of every other key are untouched. *)
Theorem multimap_insert `{Countable K} `{EqDecision V}
    (d : gmap K (list V)) (key : K) (value : V) :
  ∃ d' values n,
    MultiMap.insert key value d = (Ret tt, d') ∧
    MultiMap.find key d = (Ret values, d) ∧
    MultiMap.find key d' = (Ret (values ++ [value]), d') ∧
    MultiMap.size d = (Ret n, d) ∧
    MultiMap.size d' = (Ret (n + 1), d') ∧
    MultiMap.contains key d' = (Ret true, d') ∧
    ∀ k, k ≠ key → (MultiMap.find k d').1 = (MultiMap.find k d).1.
Proof.
  eexists _, _, _. split; [apply insert_run|].
  split; [apply find_run|]. rewrite !find_run, !size_run.
  split; [by rewrite lookup_insert_eq|]. split; [done|].
  split; [|split].
  - f_equal. f_equal. destruct (d !! key) as [values|] eqn:Hk.
    + rewrite (total_insert_Some d key values) by done.
      cbn [default from_option id]. rewrite length_app. simpl. lia.
    + rewrite total_insert_None by done. simpl. lia.
  - unfold MultiMap.contains, gets. do 2 f_equal.
    apply bool_decide_eq_true_2, elem_of_dom. rewrite lookup_insert_eq. eauto.
  - intros k Hne. rewrite find_run. cbn [fst]. by rewrite lookup_insert_ne.
Qed.

(** X14. [MultiMap.erase] returns what [count] gave for the key (0 for a
    key that is not there) and removes the key with all its values: the
    key is not contained afterwards, [size()] drops by the returned
    number, and the values of every other key are untouched. *)
Theorem multimap_erase `{Countable K} `{EqDecision V}
    (d : gmap K (list V)) (key : K) :
  ∃ d' removed n,
    MultiMap.erase key d = (Ret removed, d') ∧
    MultiMap.count key d = (Ret removed, d) ∧
    MultiMap.contains key d' = (Ret false, d') ∧
    MultiMap.find key d' = (Ret [], d') ∧
    MultiMap.size d = (Ret n, d) ∧
    MultiMap.size d' = (Ret (n - removed), d') ∧
    ∀ k, k ≠ key → (MultiMap.find k d').1 = (MultiMap.find k d).1.
Proof.
  eexists _, _, _. split; [apply erase_run|]. split; [done|].
  rewrite !find_run, !size_run. split; [|split; [|split; [done|split]]].
  - unfold MultiMap.contains, gets. do 2 f_equal.
    apply bool_decide_eq_false_2, not_elem_of_dom, lookup_delete_eq.
  - by rewrite lookup_delete_eq.
  - f_equal. f_equal. destruct (d !! key) as [values|] eqn:Hk.
    + rewrite (total_delete d key values Hk). cbn [default from_option id]. lia.
    + rewrite delete_id by done. simpl. lia.
  - intros k Hne. rewrite find_run. cbn [fst]. by rewrite lookup_delete_ne.
Qed.

(** X15. [MultiMap.erase_one] removes the first occurrence of the value
    among the values of the key and returns 1 when the value is there;
    it returns 0 and leaves the map as it is otherwise.  [size()] drops
    by the returned number and the values of every other key are
    untouched. *)
Theorem multimap_erase_one `{Countable K} `{EqDecision V}
    (d : gmap K (list V)) (key : K) (value : V) :
  ∃ d' values n removed,
    MultiMap.find key d = (Ret values, d) ∧
    MultiMap.size d = (Ret n, d) ∧
    removed = (if bool_decide (value ∈ values) then 1 else 0) ∧
    MultiMap.erase_one key value d = (Ret removed, d') ∧
    MultiMap.find key d' = (Ret (MultiMap.remove_first value values), d') ∧
    MultiMap.size d' = (Ret (n - removed), d') ∧
    (value ∉ values → d' = d) ∧
    ∀ k, k ≠ key → (MultiMap.find k d').1 = (MultiMap.find k d).1.
Proof.
  exists (MultiMap.erase_one key value d).2, (default [] (d !! key)),
    (MultiMap.total d), (if bool_decide (value ∈ default [] (d !! key)) then 1 else 0).
  split; [done|]. split; [done|]. split; [done|].
  rewrite erase_one_run, !find_run, !size_run.
  destruct (bool_decide (value ∈ default [] (d !! key))) eqn:Hin; cbn [snd fst].
  - apply bool_decide_eq_true_1 in Hin. split; [done|].
    pose proof (remove_first_length _ _ Hin) as Hlen.
    destruct (d !! key) as [values|] eqn:Hk; cbn [default from_option id] in *;
      [|by apply elem_of_nil in Hin].
    destruct (MultiMap.remove_first value values) as [|x l] eqn:Hr.
    + split; [by rewrite lookup_delete_eq|]. split.
      * rewrite (total_delete d key values Hk). f_equal. f_equal.
        simpl in Hlen. lia.
      * split; [done|]. intros k Hne. rewrite !find_run. cbn [fst].
        by rewrite lookup_delete_ne.
    + split; [by rewrite lookup_insert_eq|]. split.
      * rewrite (total_insert_Some d key values) by done. f_equal. f_equal.
        simpl in *. lia.
      * split; [done|]. intros k Hne. rewrite !find_run. cbn [fst].
        by rewrite lookup_insert_ne.
  - apply bool_decide_eq_false_1 in Hin. split; [done|].
    rewrite remove_first_absent by done. split; [done|].
    split; [f_equal; f_equal; lia|]. done.
Qed.

(** X16. On every map that construction and calls of [insert], [erase],
    [erase_one] and [clear] bring about (lists handed out by [find] are
    not mutated by the caller), no key is left with an empty list of
    values; so [empty()] is true exactly when [size()] is 0, and
    [contains(key)] exactly when [count(key)] is positive. *)
Theorem multimap_no_empty_key `{Countable K} `{EqDecision V}
    (d : gmap K (list V)) :
  MultiMap.reachable d →
  ∃ n, MultiMap.size d = (Ret n, d) ∧
       MultiMap.empty d = (Ret (bool_decide (n = 0)), d) ∧
       ∀ key, ∃ c, MultiMap.count key d = (Ret c, d) ∧
                   MultiMap.contains key d = (Ret (bool_decide (0 < c)), d).
Proof.
  intros Hd%reachable_no_empty_list. exists (MultiMap.total d).
  split; [done|]. split.
  - unfold MultiMap.empty, gets. do 2 f_equal. apply bool_decide_ext.
    rewrite map_size_empty_iff. split; [intros ->; apply total_empty|].
    by apply total_zero_empty.
  - intros key. eexists. split; [done|].
    unfold MultiMap.contains, gets. do 2 f_equal. apply bool_decide_ext.
    rewrite elem_of_dom. destruct (d !! key) as [values|] eqn:Hk.
    + split; [intros _|eauto]. cbn [default from_option id].
      destruct values; [by destruct (Hd key)|]. simpl. lia.
    + split; [by intros [? [=]]|]. simpl. lia.
Qed.

Lemma multimap_no_empty_key_witness :
  ∃ n, MultiMap.size (MultiMap.exec (MultiMap.EraseOne 1%Z 5%Z)
                        (MultiMap.MultiMap_init (Some [(1%Z, 5%Z)])).2) =
         (Ret n, MultiMap.exec (MultiMap.EraseOne 1%Z 5%Z)
                   (MultiMap.MultiMap_init (Some [(1%Z, 5%Z)])).2) ∧
       MultiMap.empty (MultiMap.exec (MultiMap.EraseOne 1%Z 5%Z)
                        (MultiMap.MultiMap_init (Some [(1%Z, 5%Z)])).2) =
         (Ret (bool_decide (n = 0)),
          MultiMap.exec (MultiMap.EraseOne 1%Z 5%Z)
            (MultiMap.MultiMap_init (Some [(1%Z, 5%Z)])).2) ∧
       ∀ key, ∃ c,
         MultiMap.count key (MultiMap.exec (MultiMap.EraseOne 1%Z 5%Z)
                        (MultiMap.MultiMap_init (Some [(1%Z, 5%Z)])).2) =
           (Ret c, MultiMap.exec (MultiMap.EraseOne 1%Z 5%Z)
                     (MultiMap.MultiMap_init (Some [(1%Z, 5%Z)])).2) ∧
         MultiMap.contains key (MultiMap.exec (MultiMap.EraseOne 1%Z 5%Z)
                        (MultiMap.MultiMap_init (Some [(1%Z, 5%Z)])).2) =
           (Ret (bool_decide (0 < c)),
            MultiMap.exec (MultiMap.EraseOne 1%Z 5%Z)
              (MultiMap.MultiMap_init (Some [(1%Z, 5%Z)])).2).
Proof.
  apply multimap_no_empty_key.
  apply MultiMap.reachable_call, MultiMap.reachable_init.
Defined.

(** X17. [MultiMap(initial_elements)] inserts the pairs in order: for
    every key, [find] gives the values paired with that key in the
    order of the list, duplicates included, and [size()] is the length
    of the list.  Without elements the map is empty. *)
Theorem multimap_init_groups `{Countable K} `{EqDecision V}
    (initial_elements : option (list (K * V))) :
  ∃ d, MultiMap.MultiMap_init initial_elements = (Ret tt, d) ∧
       (∀ key, MultiMap.find key d =
               (Ret (filter (λ p, p.1 = key)
                       (default [] initial_elements)).*2, d)) ∧
       MultiMap.size d =
         (Ret (Z.of_nat (length (default [] initial_elements))), d).
Proof.
  destruct (insert_all_spec (default [] initial_elements) ∅)
    as (d & Hrun & Hfind & Htotal & _).
  exists d. split.
  - destruct initial_elements as [[|p elements]|]; try done;
      simpl in Hrun; by injection Hrun as <-.
  - split.
    + intros key. rewrite find_run, Hfind. by rewrite lookup_empty.
    + rewrite size_run, Htotal, total_empty. f_equal. 
Qed.

(** ** The priority queue *)

Module QueueSizeFacts.
Import heapq PriorityQueue.

(** The functions of [heapq] move items inside the list; they change
    its length by [append] and [pop] only, also when a comparison
    raises. *)
Lemma setitem_length i x heap : length (setitem i x heap).2 = length heap.
Proof.
  unfold setitem. destruct (decide _); [|done]. cbn [snd]. by rewrite length_insert.
Qed.

Lemma siftdown_loop_length newitem startpos pos : ∀ heap,
  length (siftdown_loop newitem startpos pos heap).2 = length heap.
Proof.
  induction pos as [pos IH] using lt_wf_ind. intros heap.
  rewrite HeapFacts.siftdown_loop_unfold.
  destruct (decide (startpos < pos)%nat) as [Hlt|]; [|done].
  unfold bind at 1, getitem.
  destruct (heap !! Nat.shiftr (pos - 1) 1) as [parent|]; [|done].
  unfold bind at 1, lt. destruct (py_lt newitem parent) as [[]|]; [|done..].
  unfold bind. pose proof (setitem_length pos parent heap) as Hlen.
  destruct (setitem pos parent heap) as [[[]|e] heap1]; cbn [snd] in *; [|done].
  rewrite IH; [done|].
  change (Nat.shiftr (pos - 1) 1) with (Nat.div2 (pos - 1)).
  pose proof (Nat.div2_decr (pos - 1) (pos - 1)). lia.
Qed.

Lemma _siftdown_length startpos pos heap :
  length (_siftdown startpos pos heap).2 = length heap.
Proof.
  unfold _siftdown. unfold bind at 1, getitem.
  destruct (heap !! pos) as [newitem|]; [|done].
  unfold bind. pose proof (siftdown_loop_length newitem startpos pos heap) as Hlen.
  destruct (siftdown_loop newitem startpos pos heap) as [[p|e] heap1];
    cbn [snd] in *; [|done].
  by rewrite setitem_length.
Qed.

Lemma heappush_length item heap :
  length (heappush item heap).2 = S (length heap).
Proof.
  unfold heappush, bind, append, modify, len, gets.
  rewrite _siftdown_length, length_app. simpl. lia.
Qed.

Lemma siftup_loop_length endpos n : ∀ pos heap,
  n = (endpos - pos)%nat →
  length (siftup_loop endpos pos heap).2 = length heap.
Proof.
  induction n as [n IH] using lt_wf_ind. intros pos heap ->.
  rewrite HeapFacts.siftup_loop_unfold.
  destruct (decide (2 * pos + 1 < endpos)%nat) as [Hlt|]; [|done].
  assert (∀ b : bool,
    length ((x <- getitem (if b then 2 * pos + 1 + 1 else 2 * pos + 1)%nat ;;
             setitem pos x ;;;
             siftup_loop endpos (if b then 2 * pos + 1 + 1 else 2 * pos + 1)%nat)
            heap).2 = length heap) as Hrest.
  { intros b. unfold bind at 1, getitem.
    destruct (heap !! _) as [x|]; [|done].
    unfold bind. pose proof (setitem_length pos x heap) as Hlen.
    destruct (setitem pos x heap) as [[[]|e] heap1]; cbn [snd] in *; [|done].
    erewrite IH; [done| |done]. destruct b; lia. }
  unfold bind at 1. destruct (decide (2 * pos + 1 + 1 < endpos)%nat) as [Hlt'|].
  - unfold bind at 1, getitem.
    destruct (heap !! (2 * pos + 1)%nat) as [l|]; [|done].
    unfold bind at 1.
    destruct (heap !! (2 * pos + 1 + 1)%nat) as [r|]; [|done].
    unfold bind at 1, lt. destruct (py_lt l r) as [b|]; [|done].
    unfold bind at 1, ret. apply Hrest.
  - unfold ret. apply (Hrest false).
Qed.

Lemma _siftup_length pos heap : length (_siftup pos heap).2 = length heap.
Proof.
  unfold _siftup. unfold bind at 1, len, gets.
  unfold bind at 1, getitem. destruct (heap !! pos) as [newitem|]; [|done].
  unfold bind at 1.
  pose proof (siftup_loop_length (length heap) _ pos heap eq_refl) as Hlen.
  destruct (siftup_loop (length heap) pos heap) as [[leaf|e] heap1];
    cbn [snd] in *; [|done].
  unfold bind. pose proof (setitem_length leaf newitem heap1) as Hlen'.
  destruct (setitem leaf newitem heap1) as [[[]|e] heap2]; cbn [snd] in *;
    [|congruence].
  rewrite _siftdown_length. congruence.
Qed.

Lemma heappop_length heap :
  heap ≠ [] → S (length (heappop heap).2) = length heap.
Proof.
  intros Hne. destruct (exists_last Hne) as (heap0 & lastelt & ->).
  unfold heappop. unfold bind at 1, list_pop.
  rewrite last_snoc, removelast_last. unfold bind at 1, len, gets.
  rewrite length_app. simpl. case_bool_decide; [|simpl; lia].
  unfold bind at 1, getitem. destruct (heap0 !! 0%nat) as [returnitem|] eqn:H0;
    [|destruct heap0; done].
  unfold bind at 1. pose proof (setitem_length 0 lastelt heap0) as Hlen.
  destruct (setitem 0 lastelt heap0) as [[[]|e] heap1]; cbn [snd] in *;
    [|simpl; lia].
  unfold bind, ret. pose proof (_siftup_length 0 heap1) as Hlen'.
  destruct (_siftup 0 heap1) as [[[]|e] heap2]; cbn [snd] in *; lia.
Qed.

Lemma push_length value self :
  length (_data (push value self).2) = S (length (_data self)).
Proof.
  rewrite push_stored. unfold on_data.
  pose proof (heappush_length (stored_item (_reverse self) value) (_data self)).
  by destruct (heappush _ _).
Qed.

Lemma pop_length self :
  _data self ≠ [] → S (length (_data (pop self).2)) = length (_data self).
Proof.
  intros Hne. unfold pop, empty. unfold bind at 1, gets.
  rewrite bool_decide_eq_false_2 by (by destruct (_data self)).
  unfold bind at 1, on_data. pose proof (heappop_length _ Hne) as Hlen.
  destruct (heappop (_data self)) as [[value|e] heap]; cbn [snd] in *; [|done].
  unfold bind, gets. cbn [_reverse]. rewrite returned_value_run. done.
Qed.

Lemma pop_empty self :
  _data self = [] → pop self = (Raise (IndexError "Priority queue is empty"), self).
Proof.
  intros Hnil. unfold pop, empty, bind, gets. by rewrite Hnil.
Qed.

(** An item that [<] cannot compare with an integer, pushed onto a
    non-empty heap of integers: the first comparison of [_siftdown], of
    the item with its parent, raises before any item has moved. *)
Lemma heappush_beside_ints t heap :
  heap ≠ [] → Forall is_int heap →
  (∀ n, py_lt t (PyInt n) = Raise TypeError) →
  heappush t heap = (Raise TypeError, heap ++ [t]).
Proof.
  intros Hne Hint Ht.
  destruct heap as [|x l]; [done|]. clear Hne.
  unfold heappush, bind, append, modify, len, gets.
  unfold _siftdown, bind, getitem.
  rewrite length_app. simpl length.
  replace (S (length l) + 1 - 1)%nat with (length (x :: l)) by (simpl; lia).
  rewrite (lookup_app_r (x :: l)) by done. rewrite Nat.sub_diag. simpl lookup.
  cbv beta iota. rewrite HeapFacts.siftdown_loop_unfold.
  rewrite decide_True by (simpl; lia).
  unfold bind, getitem.
  destruct (lookup_lt_is_Some_2 ((x :: l) ++ [t])
              (Nat.shiftr (length (x :: l) - 1) 1)) as [p Hp].
  { rewrite length_app. simpl.
    change (Nat.shiftr (length l - 0) 1) with (Nat.div2 (length l - 0)).
    pose proof (Nat.div2_decr (length l - 0) (length l - 0)). lia. }
  rewrite Hp. unfold lt.
  assert (p ∈ x :: l) as Hin.
  { apply list_elem_of_lookup. exists (Nat.shiftr (length (x :: l) - 1) 1).
    rewrite lookup_app_l in Hp; [done|].
    simpl. change (Nat.shiftr (length l - 0) 1) with (Nat.div2 (length l - 0)).
    pose proof (Nat.div2_decr (length l - 0) (length l - 0)). lia. }
  rewrite Forall_forall in Hint. destruct (Hint p Hin) as [n ->].
  by rewrite Ht.
Qed.

End QueueSizeFacts.

Import QueueSizeFacts.

(** X18. [PriorityQueue(initial_elements)] with integers and no
    comparator: [top()] returns the greatest of the elements and
    leaves the queue as it is. *)
Theorem default_queue_top_is_greatest (ns : list Z) :
  ns ≠ [] →
  ∃ q m,
    PQ.PriorityQueue_init (Some (PyInt <$> ns)) None = (Ret tt, q) ∧
    PQ.top q = (Ret (PyInt m), q) ∧
    m ∈ ns ∧ Forall (λ n, n ≤ m) ns.
Proof.
  intros Hne.
  destruct (push_all_spec is_int (PyInt <$> ns) default_queue)
    as (heap & Hrun & Hperm & Hord).
  { apply is_int_class. }
  { done. }
  { apply Forall_fmap, Forall_fmap, Forall_forall. intros n _. by eexists. }
  cbn [PQ._reverse PQ._compare PQ._data default_queue PQ.PriorityQueue_init snd] in *.
  rewrite app_nil_r, <- list_fmap_compose in Hperm.
  assert (Forall is_int heap) as Hint.
  { rewrite Hperm. apply Forall_fmap, Forall_forall. intros n _. by eexists. }
  specialize (Hord is_int_class (λ i x p _ (H : [] !! i = Some x), ltac:(done))).
  destruct heap as [|r heap'] eqn:Hheap.
  { apply Permutation_nil_l in Hperm. by destruct ns. }
  rewrite <- Hheap in *.
  assert (heap !! 0%nat = Some r) as Hroot by (by rewrite Hheap).
  assert (r ∈ heap) as Hr by (rewrite Hheap; by left).
  rewrite Hperm in Hr. apply list_elem_of_fmap in Hr as (m & -> & Hm).
  eexists _, m. split; [|split; [|split; [done|]]].
  - destruct ns as [|n ns']; [done|]. exact Hrun.
  - rewrite (top_spec (PQ.mkPQ heap true None) _ Hroot). cbn [PQ._reverse]. simpl.
    by rewrite Z.opp_involutive.
  - apply Forall_forall. intros n Hn.
    assert (stored_item true (PyInt n) ∈ heap) as Hin.
    { rewrite Hperm. apply list_elem_of_fmap. by exists n. }
    apply list_elem_of_lookup in Hin as (i & Hi).
    pose proof (root_min is_int heap _ is_int_class Hint Hord Hroot i _ Hi) as Hle.
    unfold le in Hle. simpl in Hle. injection Hle as Hle.
    apply Z.ltb_ge in Hle. lia.
Qed.

Lemma default_queue_top_is_greatest_witness :
  [3; 1; 4] ≠ [] ∧
  ∃ q m,
    PQ.PriorityQueue_init (Some (PyInt <$> [3; 1; 4])) None = (Ret tt, q) ∧
    PQ.top q = (Ret (PyInt m), q) ∧
    m ∈ [3; 1; 4] ∧ Forall (λ n, n ≤ m) [3; 1; 4].
Proof. split; [done|]. by apply (default_queue_top_is_greatest [3; 1; 4]). Defined.

(** X19. [push] puts its item into storage before the heap compares
    it, and [pop] takes one out before the heap is put in order again:
    [size()] is one more after every [push] and one less after every
    [pop] on a non-empty queue, also for a call that ends in
    [TypeError].  [pop] on an empty queue leaves the queue as it is. *)
Theorem queue_size_moves_even_on_error (q : PQ.PriorityQueue) (value : pyval) :
  ∃ n, PQ.size q = (Ret n, q) ∧
       (PQ.size (PQ.push value q).2).1 = Ret (n + 1) ∧
       (PQ.size (PQ.pop q).2).1 = Ret (if decide (n = 0) then 0 else n - 1) ∧
       (if decide (n = 0) then (PQ.pop q).2 = q else True).
Proof.
  eexists. split; [done|]. unfold PQ.size, gets. cbn [fst].
  rewrite push_length. split; [f_equal; lia|].
  destruct (decide (PQ._data q = [])) as [Hq|Hq].
  - rewrite pop_empty by done. cbn [snd]. rewrite Hq.
    by rewrite !decide_True by done.
  - pose proof (pop_length q Hq) as Hlen.
    rewrite !decide_False by (destruct (PQ._data q); [done|simpl; lia]).
    split; [|done]. f_equal. lia.
Qed.

(** X20. A string pushed onto a non-empty queue of integers is compared
    with an integer: [push] ends in [TypeError], on a queue with and
    without comparator, and the string is in storage afterwards: the
    storage is what it was, in the same order, with the item made of
    the string behind it (the string itself on a queue with a
    comparator, the tuple of the string and -1 on a queue without), so
    [size()] is one more. *)
Theorem queue_str_after_ints_raises (q : PQ.PriorityQueue) (s : string) :
  PQ._data q ≠ [] → Forall is_int (PQ._data q) →
  PQ.push (PyStr s) q =
    (Raise TypeError,
     PQ.mkPQ (PQ._data q ++
              [if PQ._reverse q then PyTuple2 (PyStr s) (PyInt (-1))
               else PyStr s])
             (PQ._reverse q) (PQ._compare q)) ∧
  ∃ n, PQ.size q = (Ret n, q) ∧ (PQ.size (PQ.push (PyStr s) q).2).1 = Ret (n + 1).
Proof.
  intros Hne Hint. split.
  - rewrite push_stored. unfold PQ.on_data.
    rewrite (heappush_beside_ints (stored_item (PQ._reverse q) (PyStr s)));
      [by destruct (PQ._reverse q)|done..|].
    intros n. by destruct (PQ._reverse q).
  - eexists. split; [done|]. unfold PQ.size, gets. cbn [fst].
    rewrite push_length. f_equal. lia.
Qed.

Lemma queue_str_after_ints_raises_witness :
  PQ._data queue_314 ≠ [] ∧ Forall is_int (PQ._data queue_314) ∧
  PQ.push (PyStr "a") queue_314 =
    (Raise TypeError,
     PQ.mkPQ [PyInt (-4); PyInt (-1); PyInt (-3); PyTuple2 (PyStr "a") (PyInt (-1))]
             true None) ∧
  (PQ.size (PQ.push (PyStr "a") queue_314).2).1 = Ret 4.
Proof.
  assert (PQ._data queue_314 ≠ []) as H1 by (by vm_compute).
  assert (Forall is_int (PQ._data queue_314)) as H2.
  { vm_compute. repeat constructor; by eexists. }
  split; [exact H1|]. split; [exact H2|].
  destruct (queue_str_after_ints_raises queue_314 "a" H1 H2)
    as (Hpush & n & Hn & Hsize).
  split; [exact Hpush|].
  rewrite Hsize. by injection Hn as <-.
Defined.

(** ** More on [Vector] and [List] *)

(** X21. [push_back] never fails; the value is then what [back()]
    returns and what [pop_back()] returns, and [pop_back()] brings the
    vector back to what it was.  [front()] is the old first value, or
    the new value on a vector that was empty. *)
Theorem vector_push_back_pop_back {T} (d : list T) (v : T) :
  ∃ d' n,
    Vector.push_back v d = (Ret tt, d') ∧
    Vector.size d = (Ret n, d) ∧
    Vector.size d' = (Ret (n + 1), d') ∧
    Vector.back d' = (Ret v, d') ∧
    Vector.front d' = (Ret (default v (head d)), d') ∧
    Vector.pop_back d' = (Ret v, d).
Proof.
  exists (d ++ [v]), (Z.of_nat (length d)). split; [done|]. split; [done|].
  assert (Vector.empty (d ++ [v]) = (Ret false, d ++ [v])) as Hempty.
  { unfold Vector.empty, PyList.len, bind, gets, ret. do 2 f_equal.
    apply bool_decide_eq_false_2. rewrite length_app. simpl. lia. }
  split; [|split; [|split]].
  - unfold Vector.size, PyList.len, gets. do 2 f_equal.
    rewrite length_app. simpl. lia.
  - unfold Vector.back, bind. rewrite Hempty.
    apply getitem_last. by rewrite last_snoc.
  - unfold Vector.front, bind. rewrite Hempty.
    apply (getitem_nat _ 0). by destruct d.
  - unfold Vector.pop_back, bind. rewrite Hempty.
    unfold PyList.pop. by rewrite last_snoc, removelast_last.
Qed.

(** X22. [clear()] resets a list, whatever it held: every sequence of
    calls made after it returns, call by call, what the same calls
    return on a new list. *)
Theorem list_clear_as_new {T} (s : List T) (cs : list (call T)) :
  clear s = (Ret tt, (clear s).2) ∧
  observe <$> (run cs (clear s).2).1 =
  observe <$> (run cs (List_init None).2).1.
Proof.
  destruct (clear_rep s) as [Hrun Hrep]. split; [exact Hrun|].
  destruct (run_refines cs _ [] Hrep) as (cells & -> & _).
  destruct (run_init_refines None cs) as (cells' & -> & _).
  done.
Qed.

(** X23. [top], [front] and [back] look without taking: right after
    [push(v)], [Stack.top()] and [Queue.back()] return [v] and leave
    the container as [push] left it, while [Queue.front()] returns the
    oldest value; [Stack.pop()] right after [push(v)] returns [v] and
    gives the stack back as it was; [Queue.front()] returns what the
    next [pop()] returns.  On an empty container each of them raises
    [IndexError]. *)
Theorem stack_queue_peek {T} (d : list T) (v : T) :
  (Stack.push v ;;; Stack.top) d = (Ret v, d ++ [v]) ∧
  (Stack.push v ;;; Stack.pop) d = (Ret v, d) ∧
  (Queue.push v ;;; Queue.back) d = (Ret v, d ++ [v]) ∧
  (Queue.push v ;;; Queue.front) d = (Ret (default v (head d)), d ++ [v]) ∧
  Queue.front (v :: d) = (Ret v, v :: d) ∧
  Queue.pop (v :: d) = (Ret v, d) ∧
  Stack.top (T:=T) [] = (Raise (IndexError "Stack is empty"), []) ∧
  Queue.front (T:=T) [] = (Raise (IndexError "Queue is empty"), []) ∧
  Queue.back (T:=T) [] = (Raise (IndexError "Queue is empty"), []).
Proof.
  assert (∀ l : list T, bool_decide (Z.of_nat (length (l ++ [v])) = 0) = false)
    as Hne.
  { intros l. apply bool_decide_eq_false_2. rewrite length_app. simpl. lia. }
  repeat split.
  - unfold bind, Stack.push, PyList.append, modify, Stack.top, bind,
      Stack.empty, bind, PyList.len, gets, ret. rewrite Hne.
    apply getitem_last. by rewrite last_snoc.
  - unfold bind, Stack.push, PyList.append, modify. apply stack_pop_snoc.
  - unfold bind, Queue.push, PyDeque.append, modify, Queue.back, bind,
      Queue.empty, bind, PyList.len, gets, ret. rewrite Hne.
    apply deque_getitem_last. by rewrite last_snoc.
  - unfold bind, Queue.push, PyDeque.append, modify, Queue.front, bind,
      Queue.empty, bind, PyList.len, gets, ret. rewrite Hne.
    destruct d as [|x d]; apply deque_getitem_head.
Qed.

(** ** [function.py] *)

Module FunctionFacts.
Import Functions.

Lemma multiply_from (args : list Z) (start : Z) :
  fold_left (λ result num, result * num) args start = start * multiply args.
Proof.
  unfold multiply. revert start.
  induction args as [|a args IH]; intros start; simpl; [lia|].
  rewrite (IH (start * a)), (IH (1 * a)). lia.
Qed.

Lemma multiply_cons a args : multiply (a :: args) = a * multiply args.
Proof. unfold multiply at 1. simpl. rewrite multiply_from. lia. Qed.

Lemma append_cons c (s1 s2 : string) : String c s1 +:+ s2 = String c (s1 +:+ s2).
Proof. reflexivity. Qed.

Lemma append_assoc (s1 s2 s3 : string) : (s1 +:+ s2) +:+ s3 = s1 +:+ (s2 +:+ s3).
Proof.
  induction s1 as [|c s1 IH]; [done|]. by rewrite !append_cons, IH.
Qed.

Lemma append_length (s1 s2 : string) :
  String.length (s1 +:+ s2) = (String.length s1 + String.length s2)%nat.
Proof.
  induction s1 as [|c s1 IH]; [done|]. rewrite append_cons. simpl. by rewrite IH.
Qed.

Lemma substring_prefix (s1 s2 : string) :
  String.substring 0 (String.length s1) (s1 +:+ s2) = s1.
Proof.
  induction s1 as [|c s1 IH]; [by destruct s2|].
  rewrite append_cons. simpl. by rewrite IH.
Qed.

Lemma drop_last_two_append (s : string) : drop_last_two (s +:+ ", ") = s.
Proof.
  unfold drop_last_two. rewrite append_length.
  replace (String.length s + String.length ", " - 2)%nat
    with (String.length s) by (simpl; lia).
  apply substring_prefix.
Qed.

Lemma introduce_from {V} (format : V → string) (kwargs : list (string * V)) :
  ∀ (start : string) p,
  fold_left (λ introduction '(key, value),
               introduction +:+ (key +:+ ": " +:+ format value +:+ ", "))
            (p :: kwargs) start =
  (start +:+ String.concat ", "
     ((λ '(key, value), key +:+ ": " +:+ format value) <$> p :: kwargs))
    +:+ ", ".
Proof.
  induction kwargs as [|q kwargs IH]; intros start [key value].
  - simpl. by rewrite !append_assoc.
  - change (fold_left ?f (?p :: ?l) ?a) with (fold_left f l (f a p)).
    rewrite IH. rewrite !fmap_cons. destruct q as [key' value'].
    cbn [String.concat]. destruct kwargs; by rewrite !append_assoc.
Qed.

End FunctionFacts.
Import Functions FunctionFacts.

(** X24. [factorial(n)] returns n! for 0 <= n whenever the interpreter
    allows more than n nested calls; for a negative n, and for an n at
    or above the allowed depth, the recursion never reaches its base
    case in time and the call ends in [RecursionError]. *)
Theorem factorial_spec (depth : nat) (n : Z) :
  factorial depth n =
  if decide (0 ≤ n < Z.of_nat depth)
  then Some (Z.of_nat (fact (Z.to_nat n)))
  else None.
Proof.
  revert n. induction depth as [|depth IH]; intros n.
  - simpl. by rewrite decide_False by lia.
  - cbn [factorial]. destruct (Z.eqb_spec n 0) as [->|Hne].
    + by rewrite decide_True by lia.
    + rewrite IH. destruct (decide (0 ≤ n - 1 < Z.of_nat depth)) as [Hn|Hn].
      * rewrite decide_True by lia. simpl. f_equal.
        replace (Z.to_nat n) with (S (Z.to_nat (n - 1))) by lia.
        change (fact (S ?k)) with (S k * fact k)%nat.
        rewrite Nat2Z.inj_mul. f_equal. lia.
      * by rewrite decide_False by lia.
Qed.

(** X25. [multiply] returns the product of its arguments: 1 for no
    argument, the product of the two partial products for arguments in
    two runs, the same for the arguments in any order, and 0 exactly
    when an argument is 0. *)
Theorem multiply_product (xs ys : list Z) :
  multiply [] = 1 ∧
  multiply (xs ++ ys) = multiply xs * multiply ys ∧
  (xs ≡ₚ ys → multiply xs = multiply ys) ∧
  (multiply xs = 0 ↔ 0 ∈ xs).
Proof.
  split; [done|]. split; [|split].
  - unfold multiply at 1. rewrite fold_left_app, multiply_from.
    fold (multiply xs). lia.
  - induction 1 as [|x l l' _ IH|x y l|l l' l'' _ IH1 _ IH2];
      rewrite ?multiply_cons; try lia; congruence.
  - induction xs as [|x xs IH].
    + split; [done|by intros ?%elem_of_nil].
    + rewrite multiply_cons, elem_of_cons, <- IH. lia.
Qed.

Lemma multiply_product_witness :
  [1; 2; 3] ≡ₚ [3; 2; 1] ∧ multiply [1; 2; 3] = multiply [3; 2; 1].
Proof.
  assert ([1; 2; 3] ≡ₚ [3; 2; 1]) as H by apply (Permutation_rev [1; 2; 3]).
  split; [exact H|]. by apply (multiply_product [1; 2; 3] [3; 2; 1]).
Defined.

(** X26. [introduce] lists its keyword arguments as [key: value],
    separated by [, ], after [This is ]; called without arguments it
    returns [This i], the slice that removes the last separator taking
    the end of the prefix instead. *)
Theorem introduce_spec {V} (format : V → string) (kwargs : list (string * V)) :
  introduce format kwargs =
  match kwargs with
  | [] => "This i"
  | _ => "This is " +:+
         String.concat ", "
           ((λ '(key, value), key +:+ ": " +:+ format value) <$> kwargs)
  end.
Proof.
  destruct kwargs as [|p kwargs]; [done|].
  unfold introduce. rewrite introduce_from. apply drop_last_two_append.
Qed.

(** ** The queue with a comparator, on an example *)

Lemma custom_queue_round_trip_witness :
  comparable [PyInt 2; PyInt 1] ∧
  ∃ out,
    (push_then_pop_all [PyInt 2; PyInt 1] (custom_queue greater)).1 = Ret out ∧
    out ≡ₚ [PyInt 2; PyInt 1].
Proof.
  assert (comparable [PyInt 2; PyInt 1]) as H by (by apply comparableb_sound).
  split; [exact H|]. exact (custom_queue_round_trip greater _ H).
Defined.
